(** * braincell: the sodium channels of [braincell/channel/sodium.py]

    A shallow embedding of the class [INa_Rsg]: the conservation normalizer
    [normalize_states], the lifecycle hooks [init_state], [pre_integral]
    and [reset_state], [compute_derivative], the implicit step
    [update_state] with its forward-mode Jacobian and batched linear solve,
    and [current]; of the class [INa_p3q_markov] with the rate methods of
    its subclasses [INa_Ba2002], [INa_TM1991] and [INa_HH1952] (module
    [p3q]); and of the class [INa_Rsg_B] (module [RsgB]).

    Numbers are exact rationals ([Q]); the rounding of the floating point
    arithmetic of the Python program is not modelled.  An array over the
    compartments is a function from the compartment index to its entry, so
    that the whole-array operations of the source read as pointwise
    operations and a scalar broadcasts as a constant function. *)

From Stdlib Require Import String QArith Qminmax Qabs Qreduction Arith List Lia Lqa Bool.
From Stdlib Require Import Setoid Morphisms Permutation.
Import ListNotations.

Open Scope Q_scope.

(** ** Arrays over the compartment axis *)

Definition array (T : Type) : Type := nat -> T.

Definition acst {T : Type} (x : T) : array T := fun _ => x.

Definition amap2 {S T U : Type} (f : S -> T -> U) (a : array S) (b : array T) : array U :=
  fun m => f (a m) (b m).

Definition aadd : array Q -> array Q -> array Q := amap2 Qplus.
Definition asub : array Q -> array Q -> array Q := amap2 Qminus.
Definition amul : array Q -> array Q -> array Q := amap2 Qmult.
Definition adiv : array Q -> array Q -> array Q := amap2 Qdiv.

(** [u.math.maximum(a, 0)] *)
Definition amaximum (a : array Q) (q : Q) : array Q := fun m => Qmax (a m) q.

(** ** The channel object *)

(** The twelve differential state cells of [INa_Rsg.init_state].  The open
    state [O] of the source is written [O_], since [O] is the zero of [nat]. *)
Inductive StateName : Type :=
  | C1 | C2 | C3 | C4 | C5 | I1 | I2 | I3 | I4 | I5 | O_ | B.

Definition StateName_eq_dec (a b : StateName) : {a = b} + {a <> b}.
Proof. decide equality. Defined.

(** What the constructor stores and the rate lambdas read besides the
    literal constants: [phi = 3 ** ((T - 22) / 10)], the fourth roots
    [alfac = (Oon / Con) ** (1 / 4)] and [btfac = (Ooff / Coff) ** (1 / 4)],
    and the library's [u.math.exp]. *)
Record Params : Type := mkParams {
  phi : Q;
  alfac : Q;
  btfac : Q;
  exp : Q -> Q
}.

(** An [INa_Rsg] instance: its size (number of compartments), [g_max], the
    parameters, the [value] and [derivative] slots of its twelve
    [DiffEqState] cells, and the attribute [I6], which is a plain array. *)
Record INa_Rsg : Type := mkINa_Rsg {
  varshape : nat;
  g_max : array Q;
  par : Params;
  value : StateName -> array Q;
  derivative : StateName -> array Q;
  I6 : array Q
}.

(** [cell.value = a] *)
Definition set_value (c : StateName) (a : array Q) (self : INa_Rsg) : INa_Rsg :=
  mkINa_Rsg (varshape self) (g_max self) (par self)
    (fun c' => if StateName_eq_dec c' c then a else value self c')
    (derivative self) (I6 self).

Definition set_I6 (a : array Q) (self : INa_Rsg) : INa_Rsg :=
  mkINa_Rsg (varshape self) (g_max self) (par self) (value self) (derivative self) a.

(** [IonInfo]: the reversal potential and the concentration of the ion. *)
Record IonInfo : Type := mkIonInfo { ion_C : array Q; ion_E : array Q }.

(** ** [normalize_states] *)

(** An element of the list handed to [normalize_states]: a cell of the
    channel, named by its attribute (the same cell may be listed more than
    once), or an object without a [value] attribute, a plain array. *)
Inductive entry : Type :=
  | Cell (c : StateName)
  | Plain (a : array Q).

(** [10**(-12)] *)
Definition eps : Q := 1e-12.

(** Body of the first loop.  The accumulator holds [total] and the channel;
    in the [else] branch the clamped array is bound to the loop variable
    only. *)
Definition clamp_step (acc : array Q * INa_Rsg) (state : entry) : array Q * INa_Rsg :=
  let (total, self) := acc in
  match state with
  | Cell c =>
      let self' := set_value c (amaximum (value self c) 0) self in
      (aadd total (value self' c), self')
  | Plain a =>
      let state' := amaximum a 0 in
      (aadd total state', self)
  end.

(** Body of the second loop. *)
Definition divide_step (total : array Q) (self : INa_Rsg) (state : entry) : INa_Rsg :=
  match state with
  | Cell c => set_value c (adiv (value self c) (aadd total (acst eps))) self
  | Plain a =>
      let state' := adiv a (aadd total (acst eps)) in
      self
  end.

Definition normalize_states (states : list entry) (self : INa_Rsg) : INa_Rsg :=
  let (total, self1) := fold_left clamp_step states (acst 0, self) in
  fold_left (divide_step total) states self1.

(** The remainder derived by [pre_integral] and [reset_state]. *)
Definition derived_I6 (self : INa_Rsg) : array Q :=
  asub (acst 1)
    (aadd (aadd (aadd (aadd (aadd (aadd (aadd (aadd (aadd (aadd (aadd
       (value self I1) (value self I2)) (value self I3)) (value self I4))
       (value self I5)) (value self O_)) (value self B)) (value self C1))
       (value self C2)) (value self C3)) (value self C4)) (value self C5)).

Definition tracked : list StateName :=
  [C1; C2; C3; C4; C5; I1; I2; I3; I4; I5; O_; B].

Definition pre_integral (V : array Q) (Na : IonInfo) (self : INa_Rsg) : INa_Rsg :=
  let self' := set_I6 (derived_I6 self) self in
  normalize_states (map Cell tracked ++ [Plain (I6 self')]) self'.

Definition reset_state (V : array Q) (Na : IonInfo) (self : INa_Rsg) : INa_Rsg :=
  let self' := set_I6 (derived_I6 self) self in
  normalize_states (map Cell tracked ++ [Plain (I6 self')]) self'.

(** ** [current] *)

(** The method returns an array; the channel and the ion info are threaded
    through so that its effect on them can be stated. *)
Definition current (V : array Q) (Na : IonInfo) (self : INa_Rsg)
  : array Q * (INa_Rsg * IonInfo) :=
  (amul (amul (g_max self) (value self O_)) (asub (ion_E Na) V), (self, Na)).

(** ** The rate table *)

Definition Con : Q := 0.005.
Definition Coff : Q := 0.5.
Definition Oon : Q := 0.75.
Definition Ooff : Q := 0.005.
Definition alpha : Q := 150.
Definition beta : Q := 3.
Definition gamma : Q := 150.
Definition delta : Q := 40.
Definition epsilon : Q := 1.75.
Definition zeta : Q := 0.03.

Definition x1 : Q := 20.
Definition x2 : Q := -20.
Definition x3 : Q := 1e12.
Definition x4 : Q := -1e12.
Definition x5 : Q := 1e12.
Definition x6 : Q := -25.
Definition vshifta : Q := 0.
Definition vshifti : Q := 0.
Definition vshiftk : Q := 0.

(** The rate lambdas of the class.  [V] is the array of membrane voltages,
    [V m] its magnitude in mV at compartment [m] (the source divides by
    [u.mV]). *)
Section RateTable.
Variable self : INa_Rsg.
Variable V : array Q.

Let p := par self.

Definition f01 : array Q := fun m => 4 * alpha * exp p (V m / x1) * phi p.
Definition f02 : array Q := fun m => 3 * alpha * exp p (V m / x1) * phi p.
Definition f03 : array Q := fun m => 2 * alpha * exp p (V m / x1) * phi p.
Definition f04 : array Q := fun m => 1 * alpha * exp p (V m / x1) * phi p.
Definition f0O : array Q := fun m => gamma * exp p (V m / x3) * phi p.
Definition fip : array Q := fun m => epsilon * exp p (V m / x5) * phi p.
Definition f11 : array Q :=
  fun m => 4 * alpha * alfac p * exp p ((V m + vshifti) / x1) * phi p.
Definition f12 : array Q :=
  fun m => 3 * alpha * alfac p * exp p ((V m + vshifti) / x1) * phi p.
Definition f13 : array Q :=
  fun m => 2 * alpha * alfac p * exp p ((V m + vshifti) / x1) * phi p.
Definition f14 : array Q :=
  fun m => 1 * alpha * alfac p * exp p ((V m + vshifti) / x1) * phi p.
Definition f1n : array Q := fun m => gamma * exp p (V m / x3) * phi p.
Definition fi1 : array Q := fun _ => Con * phi p.
Definition fi2 : array Q := fun _ => Con * alfac p * phi p.
Definition fi3 : array Q := fun _ => Con * alfac p ^ 2 * phi p.
Definition fi4 : array Q := fun _ => Con * alfac p ^ 3 * phi p.
Definition fi5 : array Q := fun _ => Con * alfac p ^ 4 * phi p.
Definition fin : array Q := fun _ => Oon * phi p.

Definition b01 : array Q :=
  fun m => 1 * beta * exp p ((V m + vshifta) / (x2 + vshiftk)) * phi p.
Definition b02 : array Q :=
  fun m => 2 * beta * exp p ((V m + vshifta) / (x2 + vshiftk)) * phi p.
Definition b03 : array Q :=
  fun m => 3 * beta * exp p ((V m + vshifta) / (x2 + vshiftk)) * phi p.
Definition b04 : array Q :=
  fun m => 4 * beta * exp p ((V m + vshifta) / (x2 + vshiftk)) * phi p.
Definition b0O : array Q := fun m => delta * exp p (V m / x4) * phi p.
Definition bip : array Q := fun m => zeta * exp p (V m / x6) * phi p.
Definition b11 : array Q :=
  fun m => 1 * beta * btfac p * exp p ((V m + vshifti) / x2) * phi p.
Definition b12 : array Q :=
  fun m => 2 * beta * btfac p * exp p ((V m + vshifti) / x2) * phi p.
Definition b13 : array Q :=
  fun m => 3 * beta * btfac p * exp p ((V m + vshifti) / x2) * phi p.
Definition b14 : array Q :=
  fun m => 4 * beta * btfac p * exp p ((V m + vshifti) / x2) * phi p.
Definition b1n : array Q := fun m => delta * exp p (V m / x4) * phi p.
Definition bi1 : array Q := fun _ => Coff * phi p.
Definition bi2 : array Q := fun _ => Coff * btfac p * phi p.
Definition bi3 : array Q := fun _ => Coff * btfac p ^ 2 * phi p.
Definition bi4 : array Q := fun _ => Coff * btfac p ^ 3 * phi p.
Definition bi5 : array Q := fun _ => Coff * btfac p ^ 4 * phi p.
Definition bin : array Q := fun _ => Ooff * phi p.
End RateTable.

(** ** Numbers the right-hand side is evaluated on

    [rhs] is run on plain arrays (for [dS_val]) and, under [jax.jacfwd], on
    values that carry a tangent.  The rates are constants of the
    differentiation, so a state is only ever added, subtracted and
    multiplied by a rate. *)
Class Num (T : Type) : Type := {
  nadd : T -> T -> T;
  nsub : T -> T -> T;
  nmul : T -> Q -> T;
  ninj : Q -> T
}.

#[export] Instance Num_Q : Num Q :=
  {| nadd := Qplus; nsub := Qminus; nmul := Qmult; ninj := fun q => q |}.

(** A primal value with its tangent. *)
Definition dual : Type := (Q * Q)%type.

Definition primal (d : dual) : Q := fst d.
Definition tangent (d : dual) : Q := snd d.

#[export] Instance Num_dual : Num dual :=
  {| nadd := fun a b => (primal a + primal b, tangent a + tangent b);
     nsub := fun a b => (primal a - primal b, tangent a - tangent b);
     nmul := fun a r => (primal a * r, tangent a * r);
     ninj := fun q => (q, 0) |}.

(** ** The right-hand side built inside [update_state] *)
Section Rhs.
Context {T : Type} `{Num T}.
Variable self : INa_Rsg.
Variable V : array Q.

Local Notation "a +. b" := (amap2 nadd a b) (at level 50, left associativity).
Local Notation "a -. b" := (amap2 nsub a b) (at level 50, left associativity).
Local Notation "a *. r" := (amap2 nmul a r) (at level 40, left associativity).
Local Notation "r +q s" := (aadd r s) (at level 50, left associativity).

(** [S[k]]; [update_state] always stacks twelve rows. *)
Definition row (S : list (array T)) (k : nat) : array T := nth k S (acst (ninj 0)).

Definition rhs (S : list (array T)) : list (array T) :=
  let C1 := row S 0 in let C2 := row S 1 in let C3 := row S 2 in
  let C4 := row S 3 in let C5 := row S 4 in
  let I1 := row S 5 in let I2 := row S 6 in let I3 := row S 7 in
  let I4 := row S 8 in let I5 := row S 9 in
  let O := row S 10 in let B := row S 11 in
  let f01 := f01 self V in let f02 := f02 self V in let f03 := f03 self V in
  let f04 := f04 self V in let f0O := f0O self V in let fip := fip self V in
  let f11 := f11 self V in let f12 := f12 self V in let f13 := f13 self V in
  let f14 := f14 self V in let f1n := f1n self V in
  let fi1 := fi1 self in let fi2 := fi2 self in let fi3 := fi3 self in
  let fi4 := fi4 self in let fi5 := fi5 self in let fin := fin self in
  let b01 := b01 self V in let b02 := b02 self V in let b03 := b03 self V in
  let b04 := b04 self V in let b0O := b0O self V in let bip := bip self V in
  let b11 := b11 self V in let b12 := b12 self V in let b13 := b13 self V in
  let b14 := b14 self V in let b1n := b1n self V in
  let bi1 := bi1 self in let bi2 := bi2 self in let bi3 := bi3 self in
  let bi4 := bi4 self in let bi5 := bi5 self in let bin := bin self in
  let I6 := acst (ninj 1) -.
    (C1 +. C2 +. C3 +. C4 +. C5 +. I1 +. I2 +. I3 +. I4 +. I5 +. O +. B) in
  let dC1 := I1 *. bi1 +. C2 *. b01 -. C1 *. (fi1 +q f01) in
  let dC2 := C1 *. f01 +. I2 *. bi2 +. C3 *. b02 -. C2 *. (b01 +q fi2 +q f02) in
  let dC3 := C2 *. f02 +. I3 *. bi3 +. C4 *. b03 -. C3 *. (b02 +q fi3 +q f03) in
  let dC4 := C3 *. f03 +. I4 *. bi4 +. C5 *. b04 -. C4 *. (b03 +q fi4 +q f04) in
  let dC5 := C4 *. f04 +. I5 *. bi5 +. O *. b0O -. C5 *. (b04 +q fi5 +q f0O) in
  let dI1 := C1 *. fi1 +. I2 *. b11 -. I1 *. (bi1 +q f11) in
  let dI2 := I1 *. f11 +. C2 *. fi2 +. I3 *. b12 -. I2 *. (b11 +q bi2 +q f12) in
  let dI3 := I2 *. f12 +. C3 *. fi3 +. I4 *. b13 -. I3 *. (b12 +q bi3 +q f13) in
  let dI4 := I3 *. f13 +. C4 *. fi4 +. I5 *. b14 -. I4 *. (b13 +q bi4 +q f14) in
  let dI5 := I4 *. f14 +. C5 *. fi5 +. I6 *. b1n -. I5 *. (b14 +q bi5 +q f1n) in
  let dO := C5 *. f0O +. B *. bip +. I6 *. bin -. O *. (b0O +q fip +q fin) in
  let dB := O *. fip -. B *. bip in
  [dC1; dC2; dC3; dC4; dC5; dI1; dI2; dI3; dI4; dI5; dO; dB].

(** [rhs(S_point.reshape(N, 1))[:, 0]]: every entry of the point becomes
    an array of length one, which broadcasts against the rate arrays over
    the whole voltage array [V]; column 0 of the result is returned. *)
Definition rhs_point (S_point : list T) : list T :=
  map (fun r => r 0%nat) (rhs (map acst S_point)).
End Rhs.

(** ** Vectors and matrices of one compartment *)

Fixpoint zipWith {S T U : Type} (f : S -> T -> U) (a : list S) (b : list T) : list U :=
  match a, b with
  | x :: a', y :: b' => f x y :: zipWith f a' b'
  | _, _ => []
  end.

Definition vadd : list Q -> list Q -> list Q := zipWith Qplus.
Definition vsub : list Q -> list Q -> list Q := zipWith Qminus.
Definition vscale (c : Q) (v : list Q) : list Q := map (Qmult c) v.

Fixpoint dot (a x : list Q) : Q :=
  match a, x with
  | a0 :: a', x0 :: x' => a0 * x0 + dot a' x'
  | _, _ => 0
  end.

(** [A @ S] *)
Definition matvec (A : list (list Q)) (x : list Q) : list Q :=
  map (fun r => dot r x) A.

Definition mscale (c : Q) (A : list (list Q)) : list (list Q) := map (vscale c) A.
Definition msub : list (list Q) -> list (list Q) -> list (list Q) := zipWith vsub.

(** [u.math.eye(N)] *)
Definition eye (n : nat) : list (list Q) :=
  map (fun i => map (fun j => if (i =? j)%nat then 1 else 0) (seq 0 n)) (seq 0 n).

(** ** [jax.jacfwd]

    Forward mode: the function is run once per input direction on the
    point paired with the basis vector of that direction; the tangents of
    the outputs form one column of the Jacobian. *)
Definition seed (x : list Q) (j : nat) : list dual :=
  map (fun kx => (snd kx, if (fst kx =? j)%nat then 1 else 0))
      (combine (seq 0 (length x)) x).

Definition jvp (f : list dual -> list dual) (x : list Q) (j : nat) : list Q :=
  map tangent (f (seed x j)).

Definition jacfwd (f : list dual -> list dual) (x : list Q) : list (list Q) :=
  let cols := map (jvp f x) (seq 0 (length x)) in
  let n_out := length (f (map (fun q => (q, 0)) x)) in
  map (fun i => map (fun col => nth i col 0) cols) (seq 0 n_out).

(** ** [u.math.linalg.solve]

    The library routine factorises the matrix by elimination with partial
    pivoting and substitutes back.  It is modelled on the rows of the
    augmented system, one column at a time: the row whose leading
    coefficient is largest in absolute value is the pivot, the leading
    unknown is eliminated from the other rows, the smaller system is solved
    and the leading unknown is recovered from the pivot row.  When every
    candidate pivot is zero the routine has no finite answer (it divides by
    the pivot); that case is [None] here.  Entries are kept in lowest terms
    with [Qred], which does not change their value. *)
Definition arow : Type := (list Q * Q)%type.

Definition lead (r : arow) : Q := hd 0 (fst r).

(** The row with the largest leading coefficient in absolute value (the
    first such row) and the other rows in their order. *)
Fixpoint pick_pivot (rows : list arow) : option (arow * list arow) :=
  match rows with
  | [] => None
  | r :: rows' =>
      match pick_pivot rows' with
      | None => Some (r, [])
      | Some (p, rest) =>
          if Qle_bool (Qabs (lead p)) (Qabs (lead r))
          then Some (r, rows')
          else Some (p, r :: rest)
      end
  end.

Definition eliminate (p r : arow) : arow :=
  let f := lead r / lead p in
  (map Qred (vsub (tl (fst r)) (vscale f (tl (fst p)))), Qred (snd r - f * snd p)).

Fixpoint gauss (n : nat) (rows : list arow) : option (list Q) :=
  match n with
  | O => Some []
  | S n' =>
      match pick_pivot rows with
      | None => None
      | Some (p, rest) =>
          if Qeq_bool (lead p) 0 then None
          else
            match gauss n' (map (eliminate p) rest) with
            | None => None
            | Some xs => Some (Qred ((snd p - dot (tl (fst p)) xs) / lead p) :: xs)
            end
      end
  end.

Definition linalg_solve (A : list (list Q)) (b : list Q) : option (list Q) :=
  gauss (length A) (combine A b).

(** ** [update_state] *)

(** How a call of [update_state] ends: the solved states are written to the
    cells; or the solver had no finite answer for some compartment, and what
    is written there is not a number; or an exception reaches the caller. *)
Inductive outcome : Type :=
  | Written (self : INa_Rsg)
  | NonFinite
  | Raised (exc : string).

(** [State_value.T[m]], the states of compartment [m]. *)
Definition column {T : Type} (S : list (array T)) (m : nat) : list T :=
  map (fun r => r m) S.

(** The matrix [lhs] and the vector [rhs_val] assembled for compartment [m]. *)
Section Assemble.
Variable self : INa_Rsg.
Variable V : array Q.
Variable dt : Q.

Definition State_value : list (array Q) := map (value self) tracked.

Definition A_all (m : nat) : list (list Q) :=
  jacfwd (rhs_point self V) (column State_value m).

Definition dS_val : list (array Q) := rhs self V State_value.

Definition b_val (m : nat) : list Q :=
  vsub (column dS_val m) (matvec (A_all m) (column State_value m)).

Definition lhs (m : nat) : list (list Q) :=
  msub (eye (length State_value)) (mscale dt (A_all m)).

Definition rhs_val (m : nat) : list Q :=
  vadd (column State_value m) (vscale dt (b_val m)).

Definition S_new (m : nat) : option (list Q) :=
  linalg_solve (lhs m) (rhs_val m).
End Assemble.

(** [jax.vmap] of the solve over the compartments. *)
Fixpoint collect {T : Type} (l : list (option T)) : option (list T) :=
  match l with
  | [] => Some []
  | None :: _ => None
  | Some x :: l' =>
      match collect l' with
      | None => None
      | Some xs => Some (x :: xs)
      end
  end.

(** [self.C1.value = S_new_T[0]], ..., [self.B.value = S_new_T[11]]. *)
Definition write_back (S_new : list (list Q)) (self : INa_Rsg) : INa_Rsg :=
  fold_left
    (fun s kc => set_value (snd kc) (fun m => nth (fst kc) (nth m S_new []) 0) s)
    (combine (seq 0 (length tracked)) tracked) self.

(** [env_dt] is the magnitude of [brainstate.environ.get_dt()].  The size
    of the batch is read with [len(self.C1.value.squeeze())]: for a single
    compartment [squeeze] leaves an array without dimensions, whose [len]
    raises [TypeError]. *)
Definition update_state (env_dt : Q) (V : array Q) (Na : IonInfo) (self : INa_Rsg)
  : outcome :=
  let dt := env_dt / 2 in
  if (varshape self =? 1)%nat then Raised "TypeError"
  else
    let M := varshape self in
    match collect (map (S_new self V dt) (seq 0 M)) with
    | None => NonFinite
    | Some S_new => Written (write_back S_new self)
    end.

(** ** Quantities the statements speak about *)

(** The cells named in a list of entries. *)
Fixpoint cells_of (states : list entry) : list StateName :=
  match states with
  | [] => []
  | Cell c :: l => c :: cells_of l
  | Plain _ :: l => cells_of l
  end.

(** The clamped value of an entry, as the first loop adds it to [total]. *)
Definition clamped (self : INa_Rsg) (e : entry) : array Q :=
  match e with
  | Cell c => amaximum (value self c) 0
  | Plain a => amaximum a 0
  end.

(** The sum of the clamped values of every entry of the list. *)
Fixpoint clamped_total (self : INa_Rsg) (states : list entry) : array Q :=
  match states with
  | [] => acst 0
  | e :: l => aadd (clamped self e) (clamped_total self l)
  end.

(** The sum of the twelve tracked cells. *)
Definition tracked_sum (self : INa_Rsg) : array Q :=
  fold_right (fun c acc => aadd (value self c) acc) (acst 0) tracked.

(** The right-hand side of compartment [m] alone: [rhs] on the states of
    one compartment, read at index [m] of the voltage array.  [rhs_point]
    is the case [m = 0]. *)
Definition rhs_at {T : Type} `{Num T} (self : INa_Rsg) (V : array Q) (m : nat)
    (S : list T) : list T :=
  column (rhs self V (map acst S)) m.

(** The Jacobian of the right-hand side of compartment [m] at the state
    [S], and the constant term [F(S) - A S] that goes with it. *)
Definition jac (self : INa_Rsg) (V : array Q) (m : nat) (S : list Q) : list (list Q) :=
  jacfwd (rhs_at self V m) S.

Definition affine_term (self : INa_Rsg) (V : array Q) (m : nat) (S : list Q) : list Q :=
  vsub (rhs_at self V m S) (matvec (jac self V m S) S).

(** Decidable entrywise equality. *)
Fixpoint veqb (x y : list Q) : bool :=
  match x, y with
  | [], [] => true
  | x0 :: x', y0 :: y' => Qeq_bool x0 y0 && veqb x' y'
  | _, _ => false
  end.

(** The row of a cell in the stacked state [State_value]. *)
Definition index_of (c : StateName) : nat :=
  match c with
  | C1 => 0 | C2 => 1 | C3 => 2 | C4 => 3 | C5 => 4
  | I1 => 5 | I2 => 6 | I3 => 7 | I4 => 8 | I5 => 9
  | O_ => 10 | B => 11
  end.

(** Entrywise equality of vectors as rationals. *)
Definition veq (x y : list Q) : Prop := Forall2 Qeq x y.

(** [x] satisfies every row of an augmented system. *)
Definition sat (rows : list arow) (x : list Q) : Prop :=
  forall r, In r rows -> dot (fst r) x == snd r.

(** [n] rows of [n] coefficients each. *)
Definition square (n : nat) (rows : list arow) : Prop :=
  length rows = n /\ forall r, In r rows -> length (fst r) = n.

(** A square matrix is singular when it sends a vector that is not zero
    to zero. *)
Definition singular (A : list (list Q)) : Prop :=
  exists v : list Q,
    length v = length A /\ ~ Forall (fun q => q == 0) v /\
    Forall (fun r => dot r v == 0) A.

(** The channel left by a call of [update_state] that wrote a solution
    (the channel itself otherwise). *)
Definition written (o : outcome) (self : INa_Rsg) : INa_Rsg :=
  match o with
  | Written self' => self'
  | _ => self
  end.

Definition is_written (o : outcome) : bool :=
  match o with
  | Written _ => true
  | _ => false
  end.

(** ** Example channels *)

(** A channel of [M] compartments whose cells hold the same value in every
    compartment. *)
Definition uniform_channel (M : nat) (p : Params) (v : StateName -> Q) : INa_Rsg :=
  mkINa_Rsg M (acst 15) p (fun c => acst (v c)) (fun _ => acst 0) (acst 0).

(** A first-order stand-in for [u.math.exp], exact at 0. *)
Definition exp_lin (x : Q) : Q := 1 + x.

(** The parameters at 22 degrees Celsius ([phi = 1]), with the fourth
    roots rounded to 3.5 and 0.3. *)
Definition demo_params : Params := mkParams 1 3.5 0.3 exp_lin.

(** Only [C1] is occupied. *)
Definition only_C1 : INa_Rsg :=
  uniform_channel 2 demo_params (fun c => match c with C1 => 1 | _ => 0 end).

(** [C1] and [C2] hold 0.6 each: the tracked states sum to 1.2. *)
Definition overfull : INa_Rsg :=
  uniform_channel 2 demo_params
    (fun c => match c with C1 => 0.6 | C2 => 0.6 | _ => 0 end).

(** [C1] holds [1e-12], as small as the guard in the divisor, and the
    other cells hold 0. *)
Definition tiny_C1 : INa_Rsg :=
  uniform_channel 2 demo_params (fun c => match c with C1 => 1e-12 | _ => 0 end).

(** Ion info used in the examples. *)
Definition demo_Na : IonInfo := mkIonInfo (acst 10) (acst 50).


(** ** [init_state] and [compute_derivative] *)

(** [cell.derivative = a] *)
Definition set_derivative (c : StateName) (a : array Q) (self : INa_Rsg) : INa_Rsg :=
  mkINa_Rsg (varshape self) (g_max self) (par self) (value self)
    (fun c' => if StateName_eq_dec c' c then a else derivative self c') (I6 self).

(** Every cell is created holding zeros; the attribute [I6] is not
    assigned here. *)
Definition init_state (V : array Q) (Na : IonInfo) (self : INa_Rsg) : INa_Rsg :=
  mkINa_Rsg (varshape self) (g_max self) (par self) (fun _ => acst 0)
    (derivative self) (I6 self).

(** The twelve assignments in the order of the source.  The remainder is
    read from the attribute [self.I6]; dividing by [u.ms] gives the unit
    and leaves the magnitude. *)
Definition compute_derivative (V : array Q) (Na : IonInfo) (self : INa_Rsg) : INa_Rsg :=
  let v := value self in
  let self :=
    set_derivative C1
      (asub (aadd (amul (v I1) (bi1 self)) (amul (v C2) (b01 self V)))
            (amul (v C1) (aadd (fi1 self) (f01 self V)))) self in
  let self :=
    set_derivative C2
      (asub (aadd (aadd (amul (v C1) (f01 self V)) (amul (v I2) (bi2 self)))
                  (amul (v C3) (b02 self V)))
            (amul (v C2) (aadd (aadd (b01 self V) (fi2 self)) (f02 self V)))) self in
  let self :=
    set_derivative C3
      (asub (aadd (aadd (amul (v C2) (f02 self V)) (amul (v I3) (bi3 self)))
                  (amul (v C4) (b03 self V)))
            (amul (v C3) (aadd (aadd (b02 self V) (fi3 self)) (f03 self V)))) self in
  let self :=
    set_derivative C4
      (asub (aadd (aadd (amul (v C3) (f03 self V)) (amul (v I4) (bi4 self)))
                  (amul (v C5) (b04 self V)))
            (amul (v C4) (aadd (aadd (b03 self V) (fi4 self)) (f04 self V)))) self in
  let self :=
    set_derivative C5
      (asub (aadd (aadd (amul (v C4) (f04 self V)) (amul (v I5) (bi5 self)))
                  (amul (v O_) (b0O self V)))
            (amul (v C5) (aadd (aadd (b04 self V) (fi5 self)) (f0O self V)))) self in
  let self :=
    set_derivative O_
      (asub (aadd (aadd (amul (v C5) (f0O self V)) (amul (v B) (bip self V)))
                  (amul (I6 self) (bin self)))
            (amul (v O_) (aadd (aadd (b0O self V) (fip self V)) (fin self)))) self in
  let self :=
    set_derivative B
      (asub (amul (v O_) (fip self V)) (amul (v B) (bip self V))) self in
  let self :=
    set_derivative I1
      (asub (aadd (amul (v C1) (fi1 self)) (amul (v I2) (b11 self V)))
            (amul (v I1) (aadd (bi1 self) (f11 self V)))) self in
  let self :=
    set_derivative I2
      (asub (aadd (aadd (amul (v I1) (f11 self V)) (amul (v C2) (fi2 self)))
                  (amul (v I3) (b12 self V)))
            (amul (v I2) (aadd (aadd (b11 self V) (bi2 self)) (f12 self V)))) self in
  let self :=
    set_derivative I3
      (asub (aadd (aadd (amul (v I2) (f12 self V)) (amul (v C3) (fi3 self)))
                  (amul (v I4) (b13 self V)))
            (amul (v I3) (aadd (aadd (b12 self V) (bi3 self)) (f13 self V)))) self in
  let self :=
    set_derivative I4
      (asub (aadd (aadd (amul (v I3) (f13 self V)) (amul (v C4) (fi4 self)))
                  (amul (v I5) (b14 self V)))
            (amul (v I4) (aadd (aadd (b13 self V) (bi4 self)) (f14 self V)))) self in
  set_derivative I5
    (asub (aadd (aadd (amul (v I4) (f14 self V)) (amul (v C5) (fi5 self)))
                (amul (I6 self) (b1n self V)))
          (amul (v I5) (aadd (aadd (b14 self V) (bi5 self)) (f1n self V)))) self.

(** The sum of the twelve derivative slots. *)
Definition derivative_sum (self : INa_Rsg) : array Q :=
  fold_right (fun c acc => aadd (derivative self c) acc) (acst 0) tracked.

(** A voltage array that differs between compartment 0 and the others. *)
Definition V_step : array Q := fun m => if (m =? 0)%nat then 10 else 20.

(** 0 mV in compartment 0 and 10 mV in the others. *)
Definition V_rest_10 : array Q := fun m => if (m =? 0)%nat then 0 else 10.

(** [only_C1] once its attribute [I6] holds the remainder of its cells. *)
Definition only_C1_derived : INa_Rsg := set_I6 (derived_I6 only_C1) only_C1.

(** [s'] differs from [s] in the values of cells at most. *)
Definition same_but_values (s s' : INa_Rsg) : Prop :=
  varshape s' = varshape s /\ g_max s' = g_max s /\ par s' = par s /\
  derivative s' = derivative s /\ I6 s' = I6 s.

(** * [INa_p3q_markov] and its subclasses *)
Module p3q.

(** How a call ends: it returns a value or raises an exception. *)
Inductive result (T : Type) : Type :=
| Ok (x : T)
| Raise (exc : string).
Arguments Ok {T} x.
Arguments Raise {T} exc.

(** The four rate methods, which a subclass overrides. *)
Record Hooks : Type := mkHooks {
  f_p_alpha : array Q -> result (array Q);
  f_p_beta : array Q -> result (array Q);
  f_q_alpha : array Q -> result (array Q);
  f_q_beta : array Q -> result (array Q)
}.

(** The rate methods of [INa_p3q_markov] itself. *)
Definition base_hooks : Hooks :=
  mkHooks (fun _ => Raise "NotImplementedError") (fun _ => Raise "NotImplementedError")
          (fun _ => Raise "NotImplementedError") (fun _ => Raise "NotImplementedError").

(** An instance: the rate methods of its class, the parameters [phi] and
    [g_max], and the [value] and [derivative] slots of the cells [p] and
    [q]. *)
Record INa_p3q_markov : Type := mkINa_p3q_markov {
  hooks : Hooks;
  phi : array Q;
  g_max : array Q;
  p : array Q;
  q : array Q;
  p_derivative : array Q;
  q_derivative : array Q
}.

(** A method body runs on the instance; it returns or raises, and hands
    back the instance as the statements executed so far left it. *)
Definition method (T : Type) : Type := INa_p3q_markov -> result T * INa_p3q_markov.

Definition ret {T : Type} (x : T) : method T := fun self => (Ok x, self).

Definition bind {S T : Type} (a : method S) (f : S -> method T) : method T :=
  fun self =>
    match a self with
    | (Ok x, self') => f x self'
    | (Raise exc, self') => (Raise exc, self')
    end.

Notation "x <- a ;; b" := (bind a (fun x => b))
  (at level 61, a at next level, right associativity).
Notation "a ;; b" := (bind a (fun _ => b)) (at level 61, right associativity).

(** [self.f(V)] for one of the rate methods. *)
Definition call (f : Hooks -> array Q -> result (array Q)) (V : array Q)
  : method (array Q) :=
  fun self => (f (hooks self) V, self).

(** Reading an attribute. *)
Definition read {T : Type} (f : INa_p3q_markov -> T) : method T :=
  fun self => (Ok (f self), self).

(** [self.p.value = a] and the three other assignments. *)
Definition set_p (a : array Q) : method unit :=
  fun self =>
    (Ok tt, mkINa_p3q_markov (hooks self) (phi self) (g_max self) a (q self)
              (p_derivative self) (q_derivative self)).

Definition set_q (a : array Q) : method unit :=
  fun self =>
    (Ok tt, mkINa_p3q_markov (hooks self) (phi self) (g_max self) (p self) a
              (p_derivative self) (q_derivative self)).

Definition set_p_derivative (a : array Q) : method unit :=
  fun self =>
    (Ok tt, mkINa_p3q_markov (hooks self) (phi self) (g_max self) (p self) (q self)
              a (q_derivative self)).

Definition set_q_derivative (a : array Q) : method unit :=
  fun self =>
    (Ok tt, mkINa_p3q_markov (hooks self) (phi self) (g_max self) (p self) (q self)
              (p_derivative self) a).

Definition init_state (V : array Q) (Na : IonInfo) : method unit :=
  set_p (acst 0) ;;
  set_q (acst 0).

Definition reset_state (V : array Q) (Na : IonInfo) : method unit :=
  alpha <- call f_p_alpha V ;;
  beta <- call f_p_beta V ;;
  set_p (adiv alpha (aadd alpha beta)) ;;
  alpha <- call f_q_alpha V ;;
  beta <- call f_q_beta V ;;
  set_q (adiv alpha (aadd alpha beta)).

(** Dividing by [u.ms] gives the unit and leaves the magnitude. *)
Definition compute_derivative (V : array Q) (Na : IonInfo) : method unit :=
  pv <- read p ;;
  qv <- read q ;;
  ph <- read phi ;;
  alpha <- call f_p_alpha V ;;
  beta <- call f_p_beta V ;;
  set_p_derivative
    (amul ph (asub (amul alpha (asub (acst 1) pv)) (amul beta pv))) ;;
  ph <- read phi ;;
  alpha <- call f_q_alpha V ;;
  beta <- call f_q_beta V ;;
  set_q_derivative
    (amul ph (asub (amul alpha (asub (acst 1) qv)) (amul beta qv))).

Definition current (V : array Q) (Na : IonInfo) : method (array Q) :=
  g <- read g_max ;;
  pv <- read p ;;
  qv <- read q ;;
  ret (amul (amul (amul g (fun m => pv m ^ 3)) qv) (asub (ion_E Na) V)).

(** ** Subclasses *)





(** ** Examples *)

(** Rate methods of a subclass with constant rates. *)
Definition const_hooks (ap bp aq bq : Q) : Hooks :=
  mkHooks (fun _ => Ok (acst ap)) (fun _ => Ok (acst bp))
          (fun _ => Ok (acst aq)) (fun _ => Ok (acst bq)).

Definition demo (h : Hooks) : INa_p3q_markov :=
  mkINa_p3q_markov h (acst 1) (acst 90) (acst 0.5) (acst 0.5) (acst 0) (acst 0).




End p3q.

(** * [INa_Rsg_B] *)

(** The variant of the channel in which the blocked state [B] is the
    derived remainder, a plain attribute, and [I6] is a cell. *)
Module RsgB.

Inductive StateName : Type :=
| C1 | C2 | C3 | C4 | C5 | I1 | I2 | I3 | I4 | I5 | O_ | I6.

Definition StateName_eq_dec (a b : StateName) : {a = b} + {a <> b}.
Proof. decide equality. Defined.

Record INa_Rsg_B : Type := mkINa_Rsg_B {
  varshape : nat;
  g_max : array Q;
  par : Params;
  value : StateName -> array Q;
  derivative : StateName -> array Q;
  B : array Q
}.

Definition set_value (c : StateName) (a : array Q) (self : INa_Rsg_B) : INa_Rsg_B :=
  mkINa_Rsg_B (varshape self) (g_max self) (par self)
    (fun c' => if StateName_eq_dec c' c then a else value self c')
    (derivative self) (B self).

Definition set_derivative (c : StateName) (a : array Q) (self : INa_Rsg_B) : INa_Rsg_B :=
  mkINa_Rsg_B (varshape self) (g_max self) (par self) (value self)
    (fun c' => if StateName_eq_dec c' c then a else derivative self c') (B self).

Definition set_B (a : array Q) (self : INa_Rsg_B) : INa_Rsg_B :=
  mkINa_Rsg_B (varshape self) (g_max self) (par self) (value self) (derivative self) a.

Inductive entry : Type :=
| Cell (c : StateName)
| Plain (a : array Q).

(** The class carries its own copy of [normalize_states]. *)
Definition clamp_step (acc : array Q * INa_Rsg_B) (state : entry)
  : array Q * INa_Rsg_B :=
  let (total, self) := acc in
  match state with
  | Cell c =>
      let self' := set_value c (amaximum (value self c) 0) self in
      (aadd total (value self' c), self')
  | Plain a =>
      let state' := amaximum a 0 in
      (aadd total state', self)
  end.

Definition divide_step (total : array Q) (self : INa_Rsg_B) (state : entry) : INa_Rsg_B :=
  match state with
  | Cell c => set_value c (adiv (value self c) (aadd total (acst eps))) self
  | Plain a =>
      let state' := adiv a (aadd total (acst eps)) in
      self
  end.

Definition normalize_states (states : list entry) (self : INa_Rsg_B) : INa_Rsg_B :=
  let (total, self1) := fold_left clamp_step states (acst 0, self) in
  fold_left (divide_step total) states self1.

(** The twelve cells, in the order of the lists of [init_state] and
    [reset_state]. *)
Definition cells : list StateName :=
  [C1; C2; C3; C4; C5; I1; I2; I3; I4; I5; O_; I6].

(** Every cell is created holding zeros and [B] is the number 0; the
    cells are normalized at once. *)
Definition init_state (V : array Q) (Na : IonInfo) (self : INa_Rsg_B) : INa_Rsg_B :=
  let self :=
    mkINa_Rsg_B (varshape self) (g_max self) (par self) (fun _ => acst 0)
      (derivative self) (acst 0) in
  normalize_states (map Cell cells) self.

Definition derived_B (self : INa_Rsg_B) : array Q :=
  asub (acst 1)
    (aadd (aadd (aadd (aadd (aadd (aadd (aadd (aadd (aadd (aadd (aadd
       (value self I1) (value self I2)) (value self I3)) (value self I4))
       (value self I5)) (value self O_)) (value self I6)) (value self C1))
       (value self C2)) (value self C3)) (value self C4)) (value self C5)).

Definition pre_integral (V : array Q) (Na : IonInfo) (self : INa_Rsg_B) : INa_Rsg_B :=
  let self' := set_B (derived_B self) self in
  normalize_states
    [Cell C1; Cell C2; Cell C3; Cell C4; Cell C5; Cell I1; Cell I2; Cell I3;
     Cell I4; Cell I5; Cell O_; Plain (B self'); Cell I6] self'.

Definition reset_state (V : array Q) (Na : IonInfo) (self : INa_Rsg_B) : INa_Rsg_B :=
  normalize_states (map Cell cells) self.

Definition current (V : array Q) (Na : IonInfo) (self : INa_Rsg_B) : array Q :=
  amul (amul (g_max self) (value self O_)) (asub (ion_E Na) V).

(** The rate lambdas, the same text as in [INa_Rsg]. *)
Section RateTable.
Variable self : INa_Rsg_B.
Variable V : array Q.

Let p := par self.

Definition f01 : array Q := fun m => 4 * alpha * exp p (V m / x1) * phi p.
Definition f02 : array Q := fun m => 3 * alpha * exp p (V m / x1) * phi p.
Definition f03 : array Q := fun m => 2 * alpha * exp p (V m / x1) * phi p.
Definition f04 : array Q := fun m => 1 * alpha * exp p (V m / x1) * phi p.
Definition f0O : array Q := fun m => gamma * exp p (V m / x3) * phi p.
Definition fip : array Q := fun m => epsilon * exp p (V m / x5) * phi p.
Definition f11 : array Q :=
  fun m => 4 * alpha * alfac p * exp p ((V m + vshifti) / x1) * phi p.
Definition f12 : array Q :=
  fun m => 3 * alpha * alfac p * exp p ((V m + vshifti) / x1) * phi p.
Definition f13 : array Q :=
  fun m => 2 * alpha * alfac p * exp p ((V m + vshifti) / x1) * phi p.
Definition f14 : array Q :=
  fun m => 1 * alpha * alfac p * exp p ((V m + vshifti) / x1) * phi p.
Definition f1n : array Q := fun m => gamma * exp p (V m / x3) * phi p.
Definition fi1 : array Q := fun _ => Con * phi p.
Definition fi2 : array Q := fun _ => Con * alfac p * phi p.
Definition fi3 : array Q := fun _ => Con * alfac p ^ 2 * phi p.
Definition fi4 : array Q := fun _ => Con * alfac p ^ 3 * phi p.
Definition fi5 : array Q := fun _ => Con * alfac p ^ 4 * phi p.
Definition fin : array Q := fun _ => Oon * phi p.

Definition b01 : array Q :=
  fun m => 1 * beta * exp p ((V m + vshifta) / (x2 + vshiftk)) * phi p.
Definition b02 : array Q :=
  fun m => 2 * beta * exp p ((V m + vshifta) / (x2 + vshiftk)) * phi p.
Definition b03 : array Q :=
  fun m => 3 * beta * exp p ((V m + vshifta) / (x2 + vshiftk)) * phi p.
Definition b04 : array Q :=
  fun m => 4 * beta * exp p ((V m + vshifta) / (x2 + vshiftk)) * phi p.
Definition b0O : array Q := fun m => delta * exp p (V m / x4) * phi p.
Definition bip : array Q := fun m => zeta * exp p (V m / x6) * phi p.
Definition b11 : array Q :=
  fun m => 1 * beta * btfac p * exp p ((V m + vshifti) / x2) * phi p.
Definition b12 : array Q :=
  fun m => 2 * beta * btfac p * exp p ((V m + vshifti) / x2) * phi p.
Definition b13 : array Q :=
  fun m => 3 * beta * btfac p * exp p ((V m + vshifti) / x2) * phi p.
Definition b14 : array Q :=
  fun m => 4 * beta * btfac p * exp p ((V m + vshifti) / x2) * phi p.
Definition b1n : array Q := fun m => delta * exp p (V m / x4) * phi p.
Definition bi1 : array Q := fun _ => Coff * phi p.
Definition bi2 : array Q := fun _ => Coff * btfac p * phi p.
Definition bi3 : array Q := fun _ => Coff * btfac p ^ 2 * phi p.
Definition bi4 : array Q := fun _ => Coff * btfac p ^ 3 * phi p.
Definition bi5 : array Q := fun _ => Coff * btfac p ^ 4 * phi p.
Definition bin : array Q := fun _ => Ooff * phi p.
End RateTable.

(** The thirteen assignments in the order of the source; the blocked
    state is read from the attribute [self.B]. *)
Definition compute_derivative (V : array Q) (Na : IonInfo) (self : INa_Rsg_B) : INa_Rsg_B :=
  let v := value self in
  let self :=
    set_derivative C1
      (asub (aadd (amul (v I1) (bi1 self)) (amul (v C2) (b01 self V)))
            (amul (v C1) (aadd (fi1 self) (f01 self V)))) self in
  let self :=
    set_derivative C2
      (asub (aadd (aadd (amul (v C1) (f01 self V)) (amul (v I2) (bi2 self)))
                  (amul (v C3) (b02 self V)))
            (amul (v C2) (aadd (aadd (b01 self V) (fi2 self)) (f02 self V)))) self in
  let self :=
    set_derivative C3
      (asub (aadd (aadd (amul (v C2) (f02 self V)) (amul (v I3) (bi3 self)))
                  (amul (v C4) (b03 self V)))
            (amul (v C3) (aadd (aadd (b02 self V) (fi3 self)) (f03 self V)))) self in
  let self :=
    set_derivative C4
      (asub (aadd (aadd (amul (v C3) (f03 self V)) (amul (v I4) (bi4 self)))
                  (amul (v C5) (b04 self V)))
            (amul (v C4) (aadd (aadd (b03 self V) (fi4 self)) (f04 self V)))) self in
  let self :=
    set_derivative C5
      (asub (aadd (aadd (amul (v C4) (f04 self V)) (amul (v I5) (bi5 self)))
                  (amul (v O_) (b0O self V)))
            (amul (v C5) (aadd (aadd (b04 self V) (fi5 self)) (f0O self V)))) self in
  let self :=
    set_derivative O_
      (asub (aadd (aadd (amul (v C5) (f0O self V)) (amul (B self) (bip self V)))
                  (amul (v I6) (bin self)))
            (amul (v O_) (aadd (aadd (b0O self V) (fip self V)) (fin self)))) self in
  let self :=
    set_derivative I1
      (asub (aadd (amul (v C1) (fi1 self)) (amul (v I2) (b11 self V)))
            (amul (v I1) (aadd (bi1 self) (f11 self V)))) self in
  let self :=
    set_derivative I2
      (asub (aadd (aadd (amul (v I1) (f11 self V)) (amul (v C2) (fi2 self)))
                  (amul (v I3) (b12 self V)))
            (amul (v I2) (aadd (aadd (b11 self V) (bi2 self)) (f12 self V)))) self in
  let self :=
    set_derivative I3
      (asub (aadd (aadd (amul (v I2) (f12 self V)) (amul (v C3) (fi3 self)))
                  (amul (v I4) (b13 self V)))
            (amul (v I3) (aadd (aadd (b12 self V) (bi3 self)) (f13 self V)))) self in
  let self :=
    set_derivative I4
      (asub (aadd (aadd (amul (v I3) (f13 self V)) (amul (v C4) (fi4 self)))
                  (amul (v I5) (b14 self V)))
            (amul (v I4) (aadd (aadd (b13 self V) (bi4 self)) (f14 self V)))) self in
  let self :=
    set_derivative I5
      (asub (aadd (aadd (amul (v I4) (f14 self V)) (amul (v C5) (fi5 self)))
                  (amul (v I6) (b1n self V)))
            (amul (v I5) (aadd (aadd (b14 self V) (bi5 self)) (f1n self V)))) self in
  set_derivative I6
    (asub (aadd (amul (v I5) (f1n self V)) (amul (v O_) (fin self)))
          (amul (v I6) (aadd (b1n self V) (bin self)))) self.

(** The sum of the twelve cells, and of their derivative slots. *)
Definition cell_sum (self : INa_Rsg_B) : array Q :=
  fold_right (fun c acc => aadd (value self c) acc) (acst 0) cells.

Definition derivative_sum (self : INa_Rsg_B) : array Q :=
  fold_right (fun c acc => aadd (derivative self c) acc) (acst 0) cells.

(** The sum of the clamped values of the twelve cells. *)
Definition clamped_sum (self : INa_Rsg_B) : array Q :=
  fold_right (fun c acc => aadd (amaximum (value self c) 0) acc) (acst 0) cells.

(** A channel of [M] compartments whose cells hold the same value in every
    compartment. *)
Definition uniform_channel (M : nat) (p : Params) (v : StateName -> Q) : INa_Rsg_B :=
  mkINa_Rsg_B M (acst 15) p (fun c => acst (v c)) (fun _ => acst 0) (acst 0).

(** [C1] holds 0.7 and [O] holds 0.1. *)
Definition partly_open : INa_Rsg_B :=
  uniform_channel 2 demo_params
    (fun c => match c with C1 => 0.7 | O_ => 0.1 | _ => 0 end).

End RsgB.
(** * Properties *)

Arguments set_value : simpl never.

#[export] Instance Qmax_Proper : Proper (Qeq ==> Qeq ==> Qeq) Qmax := Q.max_compat.

(** ** Cells *)

Lemma value_set_value_same (c : StateName) (a : array Q) (s : INa_Rsg) :
  value (set_value c a s) c = a.
Proof.
  unfold set_value; simpl. destruct (StateName_eq_dec c c); congruence.
Qed.

Lemma value_set_value_other (c c' : StateName) (a : array Q) (s : INa_Rsg) :
  c' <> c -> value (set_value c a s) c' = value s c'.
Proof.
  intro Hne. unfold set_value; simpl.
  destruct (StateName_eq_dec c' c); congruence.
Qed.

Lemma Qmax0_nonneg (x : Q) : 0 <= Qmax x 0.
Proof. apply Q.le_max_r. Qed.

Lemma Qmax0_idem (x : Q) : Qmax (Qmax x 0) 0 == Qmax x 0.
Proof. apply Q.max_l, Qmax0_nonneg. Qed.

Lemma Qmax0_of_nonneg (x : Q) : 0 <= x -> Qmax x 0 == x.
Proof. intro Hx. apply Q.max_l, Hx. Qed.

Lemma eps_pos : 0 < eps.
Proof. reflexivity. Qed.

(** ** The first loop of [normalize_states] *)

Lemma clamped_after_clamp (c0 : StateName) (s : INa_Rsg) (e : entry) (m : nat) :
  clamped (set_value c0 (amaximum (value s c0) 0) s) e m == clamped s e m.
Proof.
  destruct e as [c|a]; cbn; [|reflexivity].
  unfold amaximum. destruct (StateName_eq_dec c c0) as [->|Hne].
  - rewrite value_set_value_same. apply Qmax0_idem.
  - rewrite value_set_value_other by assumption. reflexivity.
Qed.

Lemma clamped_total_after_clamp (c0 : StateName) (s : INa_Rsg) (l : list entry) (m : nat) :
  clamped_total (set_value c0 (amaximum (value s c0) 0) s) l m == clamped_total s l m.
Proof.
  induction l as [|e l IH]; cbn; [reflexivity|].
  unfold aadd, amap2 in *. rewrite IH, clamped_after_clamp. reflexivity.
Qed.

Lemma clamp_loop_total (states : list entry) :
  forall (t : array Q) (s : INa_Rsg) (m : nat),
    fst (fold_left clamp_step states (t, s)) m == t m + clamped_total s states m.
Proof.
  induction states as [|e l IH]; intros t s m; cbn.
  - unfold acst. ring.
  - destruct e as [c|a]; cbn; rewrite IH.
    + rewrite clamped_total_after_clamp.
      unfold aadd, amap2, amaximum. rewrite value_set_value_same. ring.
    + unfold aadd, amap2. ring.
Qed.

Lemma clamp_loop_value_out (states : list entry) :
  forall (t : array Q) (s : INa_Rsg) (c : StateName),
    ~ In c (cells_of states) ->
    value (snd (fold_left clamp_step states (t, s))) c = value s c.
Proof.
  induction states as [|e l IH]; intros t s c Hn; cbn; [reflexivity|].
  destruct e as [c0|a]; cbn in *.
  - rewrite IH by tauto. apply value_set_value_other. intuition congruence.
  - apply IH; assumption.
Qed.

Lemma clamp_loop_value_in (states : list entry) :
  forall (t : array Q) (s : INa_Rsg) (c : StateName) (m : nat),
    In c (cells_of states) ->
    value (snd (fold_left clamp_step states (t, s))) c m == Qmax (value s c m) 0.
Proof.
  induction states as [|e l IH]; intros t s c m Hin; cbn in *; [contradiction|].
  destruct e as [c0|a]; cbn in *; [|apply IH; assumption].
  destruct (in_dec StateName_eq_dec c (cells_of l)) as [Hl|Hl].
  - rewrite IH by assumption.
    destruct (StateName_eq_dec c c0) as [->|Hne].
    + rewrite value_set_value_same. apply Qmax0_idem.
    + rewrite value_set_value_other by assumption. reflexivity.
  - destruct Hin as [->|Hin]; [|contradiction].
    rewrite clamp_loop_value_out by assumption.
    rewrite value_set_value_same. reflexivity.
Qed.

Lemma clamped_total_nonneg (s : INa_Rsg) (l : list entry) (m : nat) :
  0 <= clamped_total s l m.
Proof.
  induction l as [|e l IH]; cbn; [unfold acst; lra|].
  unfold aadd, amap2.
  assert (0 <= clamped s e m) by (destruct e; cbn; apply Qmax0_nonneg).
  lra.
Qed.

Lemma clamped_le_total (s : INa_Rsg) (l : list entry) (c : StateName) (m : nat) :
  In c (cells_of l) -> Qmax (value s c m) 0 <= clamped_total s l m.
Proof.
  induction l as [|e l IH]; cbn; [contradiction|].
  unfold aadd, amap2. pose proof (clamped_total_nonneg s l m) as Ht.
  destruct e as [c0|a]; cbn.
  - intros [->|Hin].
    + unfold amaximum. lra.
    + specialize (IH Hin). pose proof (Qmax0_nonneg (value s c0 m)).
      unfold amaximum. lra.
  - intro Hin. specialize (IH Hin). pose proof (Qmax0_nonneg (a m)).
    unfold amaximum. lra.
Qed.

(** ** The second loop of [normalize_states] *)

Lemma divide_loop_out (d : array Q) (l : list entry) :
  forall (s : INa_Rsg) (c : StateName),
    ~ In c (cells_of l) ->
    value (fold_left (divide_step d) l s) c = value s c.
Proof.
  induction l as [|e l IH]; intros s c Hn; cbn; [reflexivity|].
  destruct e as [c0|a]; cbn in *.
  - rewrite IH by tauto. apply value_set_value_other. intuition congruence.
  - apply IH; assumption.
Qed.

Lemma divide_loop_in (d : array Q) (l : list entry) :
  forall (s : INa_Rsg) (c : StateName) (m : nat),
    NoDup (cells_of l) -> In c (cells_of l) ->
    value (fold_left (divide_step d) l s) c m == value s c m / (d m + eps).
Proof.
  induction l as [|e l IH]; intros s c m Hnd Hin; cbn in *; [contradiction|].
  destruct e as [c0|a]; cbn in *; [|apply IH; assumption].
  inversion Hnd as [|? ? Hnotin Hnd']; subst.
  destruct Hin as [->|Hin].
  - rewrite divide_loop_out by assumption.
    rewrite value_set_value_same. reflexivity.
  - rewrite IH by assumption.
    rewrite value_set_value_other by (intros ->; contradiction).
    reflexivity.
Qed.

Lemma divide_loop_nonneg (d : array Q) (c : StateName) (m : nat) (l : list entry) :
  0 < d m + eps ->
  forall s : INa_Rsg,
    0 <= value s c m -> 0 <= value (fold_left (divide_step d) l s) c m.
Proof.
  intro Hd. induction l as [|e l IH]; intros s Hs; cbn; [assumption|].
  destruct e as [c0|a]; cbn; [|apply IH; assumption].
  apply IH. destruct (StateName_eq_dec c c0) as [->|Hne].
  - rewrite value_set_value_same. unfold adiv, aadd, amap2, acst.
    apply Qle_shift_div_l; [assumption|]. lra.
  - rewrite value_set_value_other by assumption. assumption.
Qed.

Lemma I6_clamp_loop (l : list entry) :
  forall (t : array Q) (s : INa_Rsg),
    I6 (snd (fold_left clamp_step l (t, s))) = I6 s.
Proof.
  induction l as [|e l IH]; intros t s; cbn; [reflexivity|].
  destruct e; cbn; rewrite IH; reflexivity.
Qed.

Lemma I6_divide_loop (d : array Q) (l : list entry) :
  forall s : INa_Rsg, I6 (fold_left (divide_step d) l s) = I6 s.
Proof.
  induction l as [|e l IH]; intros s; cbn; [reflexivity|].
  destruct e; cbn; rewrite IH; reflexivity.
Qed.

(** ** [normalize_states] as a whole *)

Lemma normalize_states_eq (states : list entry) (self : INa_Rsg) :
  normalize_states states self =
  fold_left (divide_step (fst (fold_left clamp_step states (acst 0, self))))
    states (snd (fold_left clamp_step states (acst 0, self))).
Proof.
  unfold normalize_states.
  destruct (fold_left clamp_step states (acst 0, self)); reflexivity.
Qed.

Lemma normalize_total (states : list entry) (self : INa_Rsg) (m : nat) :
  fst (fold_left clamp_step states (acst 0, self)) m == clamped_total self states m.
Proof. rewrite clamp_loop_total. unfold acst. ring. Qed.

Lemma normalize_value_in (states : list entry) (self : INa_Rsg) (c : StateName) (m : nat) :
  NoDup (cells_of states) -> In c (cells_of states) ->
  value (normalize_states states self) c m ==
  Qmax (value self c m) 0 / (clamped_total self states m + eps).
Proof.
  intros Hnd Hin. rewrite normalize_states_eq.
  rewrite divide_loop_in by assumption.
  rewrite clamp_loop_value_in by assumption.
  rewrite normalize_total. reflexivity.
Qed.

Lemma normalize_value_out (states : list entry) (self : INa_Rsg) (c : StateName) :
  ~ In c (cells_of states) ->
  value (normalize_states states self) c = value self c.
Proof.
  intro Hn. rewrite normalize_states_eq.
  rewrite divide_loop_out by assumption.
  apply clamp_loop_value_out; assumption.
Qed.

Lemma I6_normalize_states (states : list entry) (self : INa_Rsg) :
  I6 (normalize_states states self) = I6 self.
Proof.
  rewrite normalize_states_eq, I6_divide_loop. apply I6_clamp_loop.
Qed.

Lemma cells_of_map_Cell (cs : list StateName) : cells_of (map Cell cs) = cs.
Proof. induction cs as [|c cs IH]; cbn; [reflexivity|]. now rewrite IH. Qed.

Lemma cells_of_app (l1 l2 : list entry) :
  cells_of (l1 ++ l2) = cells_of l1 ++ cells_of l2.
Proof.
  induction l1 as [|e l1 IH]; cbn; [reflexivity|].
  destruct e; cbn; now rewrite IH.
Qed.

Lemma clamped_total_app (s : INa_Rsg) (l1 l2 : list entry) (m : nat) :
  clamped_total s (l1 ++ l2) m == clamped_total s l1 m + clamped_total s l2 m.
Proof.
  induction l1 as [|e l1 IH]; cbn.
  - unfold acst. ring.
  - unfold aadd, amap2 in *. rewrite IH. ring.
Qed.

Lemma div_mul_cancel (a d : Q) : 0 < d -> (a / d) * d == a.
Proof. intro Hd. field. lra. Qed.

(** ** Claims about the normalizer *)

(** C3, as stated, fails when a cell occurs twice in the list: the second
    loop then divides its value twice. *)
Lemma C3_listed_twice_counterexample :
  ~ (value (normalize_states [Cell C1; Cell C1] only_C1) C1 0%nat ==
     Qmax (value only_C1 C1 0%nat) 0 /
       (clamped_total only_C1 [Cell C1; Cell C1] 0%nat + eps)).
Proof. vm_compute. discriminate. Qed.

(** C3 (amended): for every list of entries whose cells are pairwise
    distinct, after [normalize_states] each listed cell holds its clamped
    initial value divided by [T + 1e-12], where [T] is the sum of the clamped
    values of every entry of the list, plain arrays included. *)
Theorem C3_normalize_states_value
  (states : list entry) (self : INa_Rsg) (c : StateName) (m : nat) :
  NoDup (cells_of states) -> In c (cells_of states) ->
  value (normalize_states states self) c m ==
  Qmax (value self c m) 0 / (clamped_total self states m + eps).
Proof. apply normalize_value_in. Qed.

Lemma C3_normalize_states_value_witness :
  value (normalize_states (map Cell tracked ++ [Plain (acst 0.5)]) overfull) C2 1%nat ==
  Qmax (value overfull C2 1%nat) 0 /
    (clamped_total overfull (map Cell tracked ++ [Plain (acst 0.5)]) 1%nat + eps).
Proof.
  apply C3_normalize_states_value.
  - cbn. repeat constructor; cbn; intuition discriminate.
  - cbn. tauto.
Defined.

(** C7: after [normalize_states] every listed cell is non-negative,
    whatever the initial values. *)
Theorem C7_normalize_states_nonneg
  (states : list entry) (self : INa_Rsg) (c : StateName) (m : nat) :
  In c (cells_of states) ->
  0 <= value (normalize_states states self) c m.
Proof.
  intro Hin. rewrite normalize_states_eq.
  apply divide_loop_nonneg.
  - rewrite normalize_total.
    pose proof (clamped_total_nonneg self states m). pose proof eps_pos. lra.
  - rewrite clamp_loop_value_in by assumption. apply Qmax0_nonneg.
Qed.

Lemma C7_normalize_states_nonneg_witness :
  0 <= value (normalize_states [Cell C1; Plain (acst (-3)); Cell C1]
            (uniform_channel 2 demo_params (fun _ => -1))) C1 0%nat.
Proof. apply C7_normalize_states_nonneg. cbn. tauto. Defined.

(** The total found by a second application to the same cells. *)
Lemma clamped_total_once (cs : list StateName) (self : INa_Rsg) (m : nat) :
  NoDup cs ->
  forall l : list StateName, incl l cs ->
    clamped_total (normalize_states (map Cell cs) self) (map Cell l) m ==
    clamped_total self (map Cell l) m /
      (clamped_total self (map Cell cs) m + eps).
Proof.
  intros Hnd. set (T := clamped_total self (map Cell cs) m).
  assert (HT : 0 < T + eps).
  { pose proof (clamped_total_nonneg self (map Cell cs) m). pose proof eps_pos.
    unfold T. lra. }
  induction l as [|c l IH]; intro Hincl; cbn.
  - unfold acst. field. lra.
  - unfold aadd, amap2, amaximum.
    rewrite IH by (intros x Hx; apply Hincl; now right).
    assert (Hc : In c (cells_of (map Cell cs))).
    { rewrite cells_of_map_Cell. apply Hincl. now left. }
    assert (Hv : value (normalize_states (map Cell cs) self) c m ==
                 Qmax (value self c m) 0 / (T + eps)).
    { apply normalize_value_in; [rewrite cells_of_map_Cell|]; assumption. }
    rewrite Hv. rewrite Qmax0_of_nonneg.
    + field. lra.
    + apply Qle_shift_div_l; [assumption|].
      pose proof (Qmax0_nonneg (value self c m)). lra.
Qed.

(** C8, as stated, fails at [tiny_C1], where the cell [C1] holds [1e-12]
    and is the only entry of the list: one application leaves [1/2] in the
    cell, a second application leaves more than [0.99]. *)
Lemma C8_second_application_counterexample :
  let once := normalize_states [Cell C1] tiny_C1 in
  let twice := normalize_states [Cell C1] once in
  value once C1 0%nat == 1 # 2 /\ 0.99 < value twice C1 0%nat /\
  ~ value twice C1 0%nat == value once C1 0%nat.
Proof.
  cbv zeta. split; [vm_compute; reflexivity|].
  split; [vm_compute; reflexivity|]. vm_compute. discriminate.
Qed.

(** C8 (amended): for pairwise distinct cells with clamped total [T], a
    second application of [normalize_states] divides every once-normalized
    value by [T / (T + 1e-12) + 1e-12]. *)
Theorem C8_normalize_states_twice
  (cs : list StateName) (self : INa_Rsg) (c : StateName) (m : nat) :
  NoDup cs -> In c cs ->
  let states := map Cell cs in
  let once := normalize_states states self in
  let twice := normalize_states states once in
  let T := clamped_total self states m in
  value twice c m == value once c m / (T / (T + eps) + eps).
Proof.
  intros Hnd Hin states once twice T.
  assert (Hcs : cells_of states = cs) by apply cells_of_map_Cell.
  assert (Hc : In c (cells_of states)) by now rewrite Hcs.
  assert (Hnd' : NoDup (cells_of states)) by now rewrite Hcs.
  assert (Honce : value once c m == Qmax (value self c m) 0 / (T + eps))
    by (apply normalize_value_in; assumption).
  assert (Hx0 : 0 <= Qmax (value self c m) 0) by apply Qmax0_nonneg.
  assert (HT0 : 0 <= T) by apply clamped_total_nonneg.
  pose proof eps_pos as He.
  assert (Ho0 : 0 <= value once c m).
  { rewrite Honce. apply Qle_shift_div_l; lra. }
  assert (Htot : clamped_total once states m == T / (T + eps))
    by (apply (clamped_total_once cs self m Hnd cs), incl_refl).
  assert (Htwice : value twice c m == value once c m / (T / (T + eps) + eps)).
  { assert (Hv : value twice c m ==
                 Qmax (value once c m) 0 / (clamped_total once states m + eps))
      by (apply normalize_value_in; assumption).
    rewrite Hv, Htot, Qmax0_of_nonneg by assumption. reflexivity. }
  exact Htwice.
Qed.

Lemma C8_normalize_states_twice_witness :
  let states := map Cell [C1; C2] in
  let once := normalize_states states overfull in
  let twice := normalize_states states once in
  let T := clamped_total overfull states 0%nat in
  value twice C2 0%nat == value once C2 0%nat / (T / (T + eps) + eps).
Proof.
  apply (C8_normalize_states_twice [C1; C2] overfull C2 0%nat).
  - repeat constructor; cbn; intuition discriminate.
  - cbn. tauto.
Defined.

(** ** [pre_integral] *)

Lemma clamped_total_set_I6 (a : array Q) (self : INa_Rsg) (l : list entry) :
  clamped_total (set_I6 a self) l = clamped_total self l.
Proof.
  induction l as [|e l IH]; cbn; [reflexivity|].
  rewrite IH. destruct e; reflexivity.
Qed.

Lemma tracked_complete (c : StateName) : In c tracked.
Proof. destruct c; cbn; tauto. Qed.

Lemma tracked_NoDup : NoDup tracked.
Proof. repeat constructor; cbn; intuition discriminate. Qed.

(** C2 fails on the code at [overfull] (cells [C1 = C2 = 0.6]): after
    [pre_integral] the twelve cells sum to [1.2 / (1.2 + 1e-12)] while the
    attribute [I6] still holds [1 - 1.2], so that cells and remainder sum to
    about 0.8. *)
Theorem C2_pre_integral_conservation_fails (V : array Q) (Na : IonInfo) :
  let self' := pre_integral V Na overfull in
  tracked_sum self' 0%nat + I6 self' 0%nat == 1.2 / (1.2 + eps) - 0.2 /\
  1e-9 < Qabs (tracked_sum self' 0%nat + I6 self' 0%nat - 1).
Proof. split; vm_compute; reflexivity. Qed.

(** C4: [normalize_states] leaves the attribute [I6] as it was, for every
    list of entries; after [pre_integral] the attribute holds the remainder
    derived from the values before the call, neither clamped nor divided,
    while every cell was divided by a total that contains the clamped
    remainder. *)
Theorem C4_plain_entry_not_mutated (V : array Q) (Na : IonInfo) (self : INa_Rsg) :
  (forall states : list entry, I6 (normalize_states states self) = I6 self) /\
  I6 (pre_integral V Na self) = derived_I6 self /\
  (forall (c : StateName) (m : nat),
     value (pre_integral V Na self) c m ==
     Qmax (value self c m) 0 /
       (clamped_total self (map Cell tracked) m + Qmax (derived_I6 self m) 0 + eps)).
Proof.
  split; [intro states; apply I6_normalize_states|].
  split; [unfold pre_integral; rewrite I6_normalize_states; reflexivity|].
  intros c m. unfold pre_integral.
  assert (Hcells : cells_of (map Cell tracked ++ [Plain (I6 (set_I6 (derived_I6 self) self))])
                   = tracked) by reflexivity.
  rewrite normalize_value_in.
  - rewrite clamped_total_app, clamped_total_set_I6. cbn [clamped_total clamped].
    unfold aadd, amap2, amaximum, acst. cbn [I6 set_I6 value].
    apply Qdiv_comp; [reflexivity|]. lra.
  - rewrite Hcells. apply tracked_NoDup.
  - rewrite Hcells. apply tracked_complete.
Qed.

(** ** [current] *)

(** C10: [current] returns [g_max * O * (E - V)] in every compartment,
    read from the present value of the open state, and hands back the
    channel and the ion info as it received them. *)
Theorem C10_current_pure (V : array Q) (Na : IonInfo) (self : INa_Rsg) :
  (forall m : nat,
     fst (current V Na self) m = g_max self m * value self O_ m * (ion_E Na m - V m)) /\
  snd (current V Na self) = (self, Na).
Proof. split; reflexivity. Qed.

(** ** Vectors *)

Lemma dot_nil_r (a : list Q) : dot a [] = 0.
Proof. destruct a; reflexivity. Qed.

Lemma dot_sub_scale (f : Q) (a : list Q) :
  forall b x : list Q, length a = length b ->
    dot (vsub a (vscale f b)) x == dot a x - f * dot b x.
Proof.
  induction a as [|a0 a IH]; intros [|b0 b] x Hlen; try discriminate; cbn.
  - ring.
  - destruct x as [|x0 x]; [ring|].
    cbn in Hlen. injection Hlen as Hlen.
    fold (vsub a (vscale f b)). rewrite (IH b x Hlen). ring.
Qed.

Lemma dot_map_Qred (a : list Q) : forall x : list Q, dot (map Qred a) x == dot a x.
Proof.
  induction a as [|a0 a IH]; intros [|x0 x]; cbn; try reflexivity.
  rewrite IH, Qred_correct. reflexivity.
Qed.

Lemma dot_veq (a : list Q) : forall x y : list Q, veq x y -> dot a x == dot a y.
Proof.
  induction a as [|a0 a IH]; intros x y Hxy; [reflexivity|].
  destruct Hxy as [|x0 y0 x y H0 Hxy]; cbn; [reflexivity|].
  rewrite H0, (IH x y Hxy). reflexivity.
Qed.

Lemma dot_zeros (a : list Q) (n : nat) : dot a (repeat 0 n) == 0.
Proof.
  revert n. induction a as [|a0 a IH]; intros [|n]; cbn; try reflexivity.
  rewrite IH. ring.
Qed.

Lemma veq_refl (x : list Q) : veq x x.
Proof. induction x; constructor; [reflexivity|assumption]. Qed.

Lemma veq_length (x y : list Q) : veq x y -> length x = length y.
Proof. induction 1; cbn; congruence. Qed.

Lemma length_zipWith {S T U : Type} (f : S -> T -> U) (a : list S) :
  forall b : list T, length a = length b -> length (zipWith f a b) = length a.
Proof.
  induction a as [|x a IH]; intros [|y b] Hlen; try discriminate; cbn; [reflexivity|].
  cbn in Hlen. injection Hlen as Hlen. now rewrite IH.
Qed.

(** ** Choice of the pivot *)

Lemma pick_pivot_None (rows : list arow) : pick_pivot rows = None -> rows = [].
Proof.
  destruct rows as [|r rows]; [reflexivity|]. cbn.
  destruct (pick_pivot rows) as [[p rest]|]; [|discriminate].
  destruct (Qle_bool (Qabs (lead p)) (Qabs (lead r))); discriminate.
Qed.

Lemma pick_pivot_spec (rows : list arow) :
  forall (p : arow) (rest : list arow),
    pick_pivot rows = Some (p, rest) ->
    length rows = S (length rest) /\
    (forall r, In r rows <-> r = p \/ In r rest) /\
    (forall r, In r rows -> Qabs (lead r) <= Qabs (lead p)).
Proof.
  induction rows as [|r0 rows IH]; intros p rest Hp; [discriminate|].
  cbn in Hp. destruct (pick_pivot rows) as [[p' rest']|] eqn:Hrec.
  - destruct (IH p' rest' eq_refl) as (Hlen & Hin & Hmax).
    destruct (Qle_bool (Qabs (lead p')) (Qabs (lead r0))) eqn:Hle;
      injection Hp as <- <-.
    + apply Qle_bool_iff in Hle. split; [reflexivity|]. split.
      * intro r. cbn. intuition congruence.
      * intros r [<-|Hr]; [apply Qle_refl|].
        eapply Qle_trans; [apply Hmax, Hr|exact Hle].
    + assert (Hlt : Qabs (lead r0) <= Qabs (lead p')).
      { destruct (Qlt_le_dec (Qabs (lead r0)) (Qabs (lead p'))) as [H|H].
        - apply Qlt_le_weak, H.
        - apply Qle_bool_iff in H. congruence. }
      split; [cbn; now rewrite Hlen|]. split.
      * intro r. cbn. rewrite Hin. intuition congruence.
      * intros r [<-|Hr]; [exact Hlt|apply Hmax, Hr].
  - injection Hp as <- <-. apply pick_pivot_None in Hrec. subst rows.
    split; [reflexivity|]. split.
    + intro r. cbn. intuition congruence.
    + intros r [<-|[]]. apply Qle_refl.
Qed.

Lemma Qabs_zero_le (x y : Q) : Qabs x <= Qabs y -> y == 0 -> x == 0.
Proof.
  intros Hle Hy. rewrite Hy in Hle. cbn in Hle.
  pose proof (Qle_Qabs x) as H1. pose proof (Qle_Qabs (- x)) as H2.
  rewrite Qabs_opp in H2. lra.
Qed.

(** ** Elimination *)

Lemma Some_inj {T : Type} (a b : T) : Some a = Some b -> a = b.
Proof. congruence. Qed.

Lemma length_tl_row (n : nat) (r : arow) :
  length (fst r) = S n -> length (tl (fst r)) = n.
Proof. destruct (fst r); cbn; congruence. Qed.

Lemma dot_cons_lead (n : nat) (r : arow) (x0 : Q) (xs : list Q) :
  length (fst r) = S n ->
  dot (fst r) (x0 :: xs) == lead r * x0 + dot (tl (fst r)) xs.
Proof. unfold lead. destruct (fst r); cbn; [discriminate|reflexivity]. Qed.

Lemma eliminate_dot (p r : arow) (x : list Q) :
  length (tl (fst r)) = length (tl (fst p)) ->
  dot (fst (eliminate p r)) x ==
  dot (tl (fst r)) x - lead r / lead p * dot (tl (fst p)) x.
Proof.
  intro Hlen. unfold eliminate. cbn [fst].
  rewrite dot_map_Qred, dot_sub_scale by assumption. reflexivity.
Qed.

Lemma eliminate_snd (p r : arow) :
  snd (eliminate p r) == snd r - lead r / lead p * snd p.
Proof. unfold eliminate. cbn [snd]. apply Qred_correct. Qed.

Lemma eliminate_length (n : nat) (p r : arow) :
  length (fst p) = S n -> length (fst r) = S n ->
  length (fst (eliminate p r)) = n.
Proof.
  intros Hp Hr. unfold eliminate. cbn [fst].
  rewrite length_map. unfold vsub, vscale.
  rewrite length_zipWith; rewrite ?length_map;
    erewrite !length_tl_row by eassumption; reflexivity.
Qed.

Lemma eliminate_square (n : nat) (rows rest : list arow) (p : arow) :
  square (S n) rows -> pick_pivot rows = Some (p, rest) ->
  square n (map (eliminate p) rest).
Proof.
  intros [Hlen Hrow] Hp.
  destruct (pick_pivot_spec _ _ _ Hp) as (Hl & Hin & _).
  split; [rewrite length_map; lia|].
  intros r' Hr'. apply in_map_iff in Hr' as (r & <- & Hr).
  apply eliminate_length; apply Hrow, Hin; auto.
Qed.

(** What the solver returns satisfies every equation of the system. *)
Lemma gauss_sound (n : nat) :
  forall (rows : list arow) (xs : list Q),
    square n rows -> gauss n rows = Some xs ->
    length xs = n /\ sat rows xs.
Proof.
  induction n as [|n IH]; intros rows xs Hsq Hg; cbn [gauss] in Hg.
  - apply Some_inj in Hg; subst xs. split; [reflexivity|].
    destruct Hsq as [Hlen _]. destruct rows; [|discriminate]. intros r [].
  - destruct (pick_pivot rows) as [[p rest]|] eqn:Hp; [|discriminate].
    destruct (Qeq_bool (lead p) 0) eqn:Hz; [discriminate|].
    destruct (gauss n (map (eliminate p) rest)) as [xs'|] eqn:Hrec; [|discriminate].
    apply Some_inj in Hg; subst xs.
    apply Qeq_bool_neq in Hz.
    destruct (IH _ _ (eliminate_square n rows rest p Hsq Hp) Hrec) as (Hlx & Hsat).
    destruct Hsq as [Hlen Hrow].
    destruct (pick_pivot_spec _ _ _ Hp) as (Hl & Hin & _).
    assert (Hplen : length (fst p) = S n) by (apply Hrow, Hin; auto).
    split; [cbn; now rewrite Hlx|].
    intros r Hr. assert (Hrlen : length (fst r) = S n) by (apply Hrow, Hr).
    rewrite (dot_cons_lead n) by assumption. rewrite Qred_correct.
    apply Hin in Hr. destruct Hr as [->|Hr].
    + field. exact Hz.
    + pose proof (Hsat (eliminate p r) (in_map _ _ _ Hr)) as He.
      rewrite eliminate_dot, eliminate_snd in He
        by (now rewrite !(length_tl_row n)).
      assert (Ht : dot (tl (fst r)) xs' ==
                   snd r - lead r / lead p * snd p +
                   lead r / lead p * dot (tl (fst p)) xs').
      { rewrite <- He. ring. }
      rewrite Ht. field. exact Hz.
Qed.

(** The solver only succeeds when the system has no other solution. *)
Lemma gauss_unique (n : nat) :
  forall (rows : list arow) (xs ys : list Q),
    square n rows -> gauss n rows = Some xs ->
    length ys = n -> sat rows ys -> veq ys xs.
Proof.
  induction n as [|n IH]; intros rows xs ys Hsq Hg Hly Hys; cbn [gauss] in Hg.
  - apply Some_inj in Hg; subst xs. destruct ys; [constructor|discriminate].
  - destruct (pick_pivot rows) as [[p rest]|] eqn:Hp; [|discriminate].
    destruct (Qeq_bool (lead p) 0) eqn:Hz; [discriminate|].
    destruct (gauss n (map (eliminate p) rest)) as [xs'|] eqn:Hrec; [|discriminate].
    apply Some_inj in Hg; subst xs.
    apply Qeq_bool_neq in Hz.
    destruct ys as [|y0 ys]; [discriminate|]. cbn in Hly. injection Hly as Hly.
    pose proof (eliminate_square n rows rest p Hsq Hp) as Hsq'.
    destruct Hsq as [Hlen Hrow].
    destruct (pick_pivot_spec _ _ _ Hp) as (Hl & Hin & _).
    assert (Hplen : length (fst p) = S n) by (apply Hrow, Hin; auto).
    assert (Hpy : lead p * y0 + dot (tl (fst p)) ys == snd p).
    { rewrite <- (dot_cons_lead n) by assumption. apply Hys, Hin. auto. }
    assert (Htail : veq ys xs').
    { apply (IH (map (eliminate p) rest)); try assumption.
      intros r' Hr'. apply in_map_iff in Hr' as (r & <- & Hr).
      assert (Hrin : In r rows) by (apply Hin; auto).
      assert (Hrlen : length (fst r) = S n) by (apply Hrow, Hrin).
      rewrite eliminate_dot, eliminate_snd by (now rewrite !(length_tl_row n)).
      pose proof (Hys r Hrin) as Hr0.
      rewrite (dot_cons_lead n) in Hr0 by assumption.
      assert (Ha : dot (tl (fst r)) ys == snd r - lead r * y0) by (rewrite <- Hr0; ring).
      assert (Hb : dot (tl (fst p)) ys == snd p - lead p * y0) by (rewrite <- Hpy; ring).
      rewrite Ha, Hb. field. exact Hz. }
    constructor; [|exact Htail].
    rewrite Qred_correct, <- (dot_veq _ _ _ Htail), <- Hpy. field. exact Hz.
Qed.

(** When the solver gives up, some vector that is not zero is sent to zero
    by the coefficient rows. *)
Lemma gauss_None_kernel (n : nat) :
  forall rows : list arow,
    square n rows -> gauss n rows = None ->
    exists v : list Q,
      length v = n /\ ~ Forall (fun q => q == 0) v /\
      forall r, In r rows -> dot (fst r) v == 0.
Proof.
  induction n as [|n IH]; intros rows Hsq Hg; cbn [gauss] in Hg; [discriminate|].
  destruct (pick_pivot rows) as [[p rest]|] eqn:Hp.
  - pose proof (eliminate_square n rows rest p Hsq Hp) as Hsq'.
    destruct Hsq as [Hlen Hrow].
    destruct (pick_pivot_spec _ _ _ Hp) as (Hl & Hin & Hmax).
    assert (Hplen : length (fst p) = S n) by (apply Hrow, Hin; auto).
    destruct (Qeq_bool (lead p) 0) eqn:Hz.
    + apply Qeq_bool_eq in Hz.
      exists (1 :: repeat 0 n). split; [cbn; now rewrite repeat_length|]. split.
      * intro Hall. inversion Hall as [|? ? H1 _]. discriminate H1.
      * intros r Hr. rewrite (dot_cons_lead n) by (apply Hrow, Hr).
        rewrite dot_zeros, (Qabs_zero_le _ _ (Hmax r Hr) Hz). ring.
    + apply Qeq_bool_neq in Hz.
      destruct (gauss n (map (eliminate p) rest)) as [xs'|] eqn:Hrec; [discriminate|].
      destruct (IH _ Hsq' Hrec) as (v' & Hlv & Hnz & Hker).
      exists (- dot (tl (fst p)) v' / lead p :: v').
      split; [cbn; now rewrite Hlv|]. split.
      * intro Hall. inversion Hall. contradiction.
      * intros r Hr. assert (Hrlen : length (fst r) = S n) by (apply Hrow, Hr).
        rewrite (dot_cons_lead n) by assumption.
        apply Hin in Hr. destruct Hr as [->|Hr]; [field; exact Hz|].
        pose proof (Hker (eliminate p r) (in_map _ _ _ Hr)) as He.
        rewrite eliminate_dot in He by (now rewrite !(length_tl_row n)).
        assert (Ht : dot (tl (fst r)) v' == lead r / lead p * dot (tl (fst p)) v')
          by (rewrite <- (Qplus_0_l (_ * _)), <- He; ring).
        rewrite Ht. field. exact Hz.
  - apply pick_pivot_None in Hp. destruct Hsq as [Hlen _]. subst rows. discriminate.
Qed.

(** ** [linalg_solve] on a square system *)

Lemma dot_vadd (a : list Q) :
  forall x v : list Q, length x = length v ->
    dot a (vadd x v) == dot a x + dot a v.
Proof.
  induction a as [|a0 a IH]; intros [|x0 x] [|v0 v] Hlen; try discriminate; cbn;
    try ring.
  cbn in Hlen. injection Hlen as Hlen. fold (vadd x v).
  rewrite (IH x v Hlen). ring.
Qed.

Lemma veq_vadd_zero (x : list Q) :
  forall v : list Q, length x = length v ->
    veq (vadd x v) x -> Forall (fun q => q == 0) v.
Proof.
  induction x as [|x0 x IH]; intros [|v0 v] Hlen Heq; try discriminate;
    [constructor|].
  cbn in Hlen. injection Hlen as Hlen. cbn in Heq.
  inversion Heq as [|? ? ? ? H0 Hrest]; subst.
  constructor; [lra|]. apply IH; assumption.
Qed.

Lemma square_combine (A : list (list Q)) (b : list Q) :
  length b = length A -> Forall (fun r => length r = length A) A ->
  square (length A) (combine A b).
Proof.
  intros Hb Hrows. unfold square, arow. split.
  - rewrite length_combine. lia.
  - intros r Hr. destruct r as [a y]. apply in_combine_l in Hr.
    rewrite Forall_forall in Hrows. apply Hrows, Hr.
Qed.

Lemma sat_combine_matvec (A : list (list Q)) :
  forall (b x : list Q), length b = length A ->
    sat (combine A b) x -> veq (matvec A x) b.
Proof.
  induction A as [|a A IH]; intros [|b0 b] x Hlen Hsat; try discriminate;
    [constructor|].
  cbn in Hlen. injection Hlen as Hlen. cbn. constructor.
  - apply (Hsat (a, b0)). now left.
  - apply IH; [assumption|]. intros r Hr. apply Hsat. now right.
Qed.

Lemma matvec_sat_combine (A : list (list Q)) :
  forall (b x : list Q),
    veq (matvec A x) b -> sat (combine A b) x.
Proof.
  induction A as [|a A IH]; intros b x Heq r Hr; [destruct Hr|].
  cbn in Heq. inversion Heq as [|? b0 ? b' H0 Hrest]; subst.
  destruct Hr as [<-|Hr]; [exact H0|]. apply (IH b' x Hrest), Hr.
Qed.

Lemma linalg_solve_sound (A : list (list Q)) (b x : list Q) :
  length b = length A -> Forall (fun r => length r = length A) A ->
  linalg_solve A b = Some x ->
  length x = length A /\ veq (matvec A x) b.
Proof.
  intros Hb Hrows Hs. unfold linalg_solve in Hs.
  destruct (gauss_sound _ _ _ (square_combine A b Hb Hrows) Hs) as [Hl Hsat].
  split; [assumption|]. apply sat_combine_matvec; assumption.
Qed.

Lemma linalg_solve_singular (A : list (list Q)) (b : list Q) :
  length b = length A -> Forall (fun r => length r = length A) A ->
  singular A -> linalg_solve A b = None.
Proof.
  intros Hb Hrows (v & Hlv & Hnz & Hker).
  destruct (linalg_solve A b) as [x|] eqn:Hs; [|reflexivity].
  exfalso. apply Hnz. unfold linalg_solve in Hs.
  pose proof (square_combine A b Hb Hrows) as Hsq.
  destruct (gauss_sound _ _ _ Hsq Hs) as [Hl Hsat].
  apply (veq_vadd_zero x); [congruence|].
  apply (gauss_unique _ _ _ _ Hsq Hs).
  - unfold vadd. rewrite length_zipWith; congruence.
  - intros r Hr. rewrite dot_vadd by congruence.
    rewrite (Hsat r Hr). destruct r as [a y]. apply in_combine_l in Hr.
    rewrite Forall_forall in Hker. cbn [fst snd]. rewrite (Hker a Hr). ring.
Qed.

Lemma linalg_solve_None (A : list (list Q)) (b : list Q) :
  length b = length A -> Forall (fun r => length r = length A) A ->
  linalg_solve A b = None -> singular A.
Proof.
  intros Hb Hrows Hs. unfold linalg_solve in Hs.
  destruct (gauss_None_kernel _ _ (square_combine A b Hb Hrows) Hs)
    as (v & Hlv & Hnz & Hker).
  exists v. split; [assumption|]. split; [assumption|].
  clear Hs Hrows Hlv. revert b Hb Hker.
  induction A as [|a A IH]; intros [|b0 b] Hb Hker; try discriminate; constructor.
  - apply (Hker (a, b0)). now left.
  - cbn in Hb. injection Hb as Hb. apply (IH b); [assumption|].
    intros r Hr. apply Hker. now right.
Qed.

(** ** The right-hand side and its Jacobian *)

Ltac list12 S :=
  do 12 (destruct S as [|? S]; [discriminate|]); destruct S; [|discriminate].

Ltac unfold_rhs :=
  cbv beta iota zeta delta
    [affine_term jac jacfwd jvp seed rhs_at rhs rhs_point column row
     A_all b_val dS_val lhs rhs_val State_value tracked eye msub mscale vscale vadd
     map nth combine seq length amap2 acst aadd nadd nsub nmul ninj Num_Q Num_dual
     tangent primal fst snd vsub zipWith matvec dot Nat.eqb].

(** The Jacobian that [update_state] computes for compartment [m] is the
    Jacobian of the right-hand side of compartment 0, whatever [m] is. *)
Lemma A_all_eq_jac0 (self : INa_Rsg) (V : array Q) (m : nat) :
  A_all self V m = jac self V 0 (column (State_value self) m).
Proof. reflexivity. Qed.

Lemma dS_val_column (self : INa_Rsg) (V : array Q) (m : nat) :
  column (dS_val self V) m = rhs_at self V m (column (State_value self) m).
Proof. unfold_rhs. reflexivity. Qed.

Lemma jac_state_independent (self : INa_Rsg) (V : array Q) (m : nat) (S S' : list Q) :
  length S = 12%nat -> length S' = 12%nat -> jac self V m S = jac self V m S'.
Proof. intros H H'. list12 S. list12 S'. unfold_rhs. reflexivity. Qed.

Lemma affine_term_state_independent
  (self : INa_Rsg) (V : array Q) (m : nat) (S S' : list Q) :
  length S = 12%nat -> length S' = 12%nat ->
  veq (affine_term self V m S) (affine_term self V m S').
Proof.
  intros H H'. list12 S. list12 S'. unfold_rhs.
  repeat (constructor; [ring|]). constructor.
Qed.

(** ** Shapes of the assembled system *)

Lemma length_State_value_column (self : INa_Rsg) (m : nat) :
  length (column (State_value self) m) = 12%nat.
Proof. reflexivity. Qed.

Lemma lhs_shape (self : INa_Rsg) (V : array Q) (dt : Q) (m : nat) :
  length (lhs self V dt m) = 12%nat /\
  Forall (fun r => length r = 12%nat) (lhs self V dt m).
Proof. unfold_rhs. split; [reflexivity|]. repeat constructor. Qed.

Lemma rhs_val_length (self : INa_Rsg) (V : array Q) (dt : Q) (m : nat) :
  length (rhs_val self V dt m) = 12%nat.
Proof. unfold_rhs. reflexivity. Qed.

(** ** [jax.vmap] over the compartments *)

Lemma collect_seq {T : Type} (f : nat -> option T) (d : T) (n : nat) :
  forall (a : nat) (L : list T),
    collect (map f (seq a n)) = Some L ->
    length L = n /\ forall i, (i < n)%nat -> f (a + i)%nat = Some (nth i L d).
Proof.
  induction n as [|n IH]; intros a L Hc; cbn in Hc.
  - apply Some_inj in Hc. subst L. split; [reflexivity|]. intros i Hi. lia.
  - destruct (f a) as [x|] eqn:Hfa; [|discriminate].
    destruct (collect (map f (seq (S a) n))) as [xs|] eqn:Hrec; [|discriminate].
    apply Some_inj in Hc. subst L.
    destruct (IH (S a) xs Hrec) as [Hlen Hnth].
    split; [cbn; now rewrite Hlen|].
    intros [|i] Hi; cbn.
    + now rewrite Nat.add_0_r.
    + rewrite <- Hnth by lia. f_equal. lia.
Qed.

Lemma collect_seq_None {T : Type} (f : nat -> option T) (n : nat) :
  forall a : nat,
    collect (map f (seq a n)) = None ->
    exists i, (i < n)%nat /\ f (a + i)%nat = None.
Proof.
  induction n as [|n IH]; intros a Hc; cbn in Hc; [discriminate|].
  destruct (f a) as [x|] eqn:Hfa.
  - destruct (collect (map f (seq (S a) n))) as [xs|] eqn:Hrec; [discriminate|].
    destruct (IH (S a) Hrec) as (i & Hi & Hf).
    exists (S i). split; [lia|]. rewrite <- Hf. f_equal. lia.
  - exists 0%nat. split; [lia|]. now rewrite Nat.add_0_r.
Qed.

(** ** Writing the solution back *)

Lemma value_write_back (L : list (list Q)) (self : INa_Rsg) (c : StateName) (m : nat) :
  value (write_back L self) c m = nth (index_of c) (nth m L []) 0.
Proof. destruct c; reflexivity. Qed.

Lemma list12_eta (x : list Q) :
  length x = 12%nat -> map (fun k => nth k x 0) (seq 0 12) = x.
Proof. intro H. list12 x. reflexivity. Qed.

Lemma column_write_back (L : list (list Q)) (self : INa_Rsg) (m : nat) :
  length (nth m L []) = 12%nat ->
  column (State_value (write_back L self)) m = nth m L [].
Proof.
  intro H. transitivity (map (fun k => nth k (nth m L []) 0) (seq 0 12)).
  - unfold column, State_value, tracked. cbn [map seq].
    rewrite !value_write_back. reflexivity.
  - apply list12_eta, H.
Qed.

(** ** [update_state] *)

Lemma update_state_Written_inv
  (env_dt : Q) (V : array Q) (Na : IonInfo) (self self' : INa_Rsg) :
  update_state env_dt V Na self = Written self' ->
  varshape self <> 1%nat /\
  exists L : list (list Q),
    collect (map (S_new self V (env_dt / 2)) (seq 0 (varshape self))) = Some L /\
    self' = write_back L self.
Proof.
  unfold update_state. cbv zeta.
  destruct (varshape self =? 1)%nat eqn:HM; [discriminate|].
  apply Nat.eqb_neq in HM.
  destruct (collect _) as [L|] eqn:Hc; [|discriminate].
  intro H. split; [assumption|]. exists L. split; [reflexivity|]. congruence.
Qed.

Lemma linalg_solve_unique (A : list (list Q)) (b x y : list Q) :
  length b = length A -> Forall (fun r => length r = length A) A ->
  linalg_solve A b = Some x ->
  length y = length A -> veq (matvec A y) b -> veq y x.
Proof.
  intros Hb Hrows Hs Hy Heq. unfold linalg_solve in Hs.
  apply (gauss_unique _ _ _ _ (square_combine A b Hb Hrows) Hs Hy).
  apply matvec_sat_combine, Heq.
Qed.

(** What a successful call writes for compartment [m]: the solver's answer
    for the system assembled for [m]. *)
Lemma update_state_solution
  (env_dt : Q) (V : array Q) (Na : IonInfo) (self self' : INa_Rsg) (m : nat) :
  update_state env_dt V Na self = Written self' -> (m < varshape self)%nat ->
  S_new self V (env_dt / 2) m = Some (column (State_value self') m) /\
  veq (matvec (lhs self V (env_dt / 2) m) (column (State_value self') m))
      (rhs_val self V (env_dt / 2) m).
Proof.
  intros Hw Hm.
  destruct (update_state_Written_inv _ _ _ _ _ Hw) as (_ & L & Hc & ->).
  destruct (collect_seq _ [] _ _ _ Hc) as [_ Hnth].
  specialize (Hnth m Hm). cbn [Nat.add] in Hnth.
  destruct (lhs_shape self V (env_dt / 2) m) as [Hl Hrows].
  pose proof (rhs_val_length self V (env_dt / 2) m) as Hb.
  assert (Hsound := linalg_solve_sound (lhs self V (env_dt / 2) m)
                      (rhs_val self V (env_dt / 2) m) (nth m L [])).
  rewrite Hl in Hsound. specialize (Hsound Hb Hrows Hnth).
  destruct Hsound as [Hlen Heq].
  rewrite (column_write_back L self m Hlen). split; assumption.
Qed.

(** X1.  When [update_state] writes a state, then in every compartment [m]
    the written state [S'] solves [(I - h A0) S' = S + h (F_m(S) - A0 S)],
    where [h] is half the environment's time step, [F_m] the right-hand
    side at the voltage of compartment [m], and [A0] the Jacobian of the
    right-hand side at the voltage of compartment 0. *)
Theorem update_state_step_equation
  (env_dt : Q) (V : array Q) (Na : IonInfo) (self self' : INa_Rsg) (m : nat) :
  update_state env_dt V Na self = Written self' -> (m < varshape self)%nat ->
  let h := env_dt / 2 in
  let S := column (State_value self) m in
  let S' := column (State_value self') m in
  let A0 := jac self V 0 S in
  veq (matvec (msub (eye 12) (mscale h A0)) S')
      (vadd S (vscale h (vsub (rhs_at self V m S) (matvec A0 S)))).
Proof.
  intros Hw Hm h S S' A0.
  destruct (update_state_solution _ _ _ _ _ m Hw Hm) as [_ Heq].
  unfold lhs, rhs_val, b_val in Heq.
  rewrite dS_val_column, A_all_eq_jac0 in Heq. exact Heq.
Qed.

(** ** The matrix [I - h A] applied to a vector *)

Lemma veq_sym (x y : list Q) : veq x y -> veq y x.
Proof. induction 1; constructor; [symmetry|]; assumption. Qed.

Lemma veq_trans (x y z : list Q) : veq x y -> veq y z -> veq x z.
Proof.
  intro Hxy. revert z. induction Hxy as [|a b x y Hab Hxy IH]; intros z Hyz;
    inversion Hyz; subst; constructor.
  - etransitivity; eassumption.
  - apply IH; assumption.
Qed.

Lemma dot_unit_row (i : nat) (x : list Q) :
  forall a : nat,
    dot (map (fun j => if (i =? j)%nat then 1 else 0) (seq a (length x))) x ==
    if (a <=? i)%nat then nth (i - a) x 0 else 0.
Proof.
  induction x as [|x0 x IH]; intro a; cbn [length seq map dot].
  - destruct (a <=? i)%nat; [|reflexivity]. destruct (i - a)%nat; reflexivity.
  - rewrite IH. destruct (Nat.eqb_spec i a) as [->|Hne].
    + rewrite Nat.leb_refl, Nat.sub_diag.
      destruct (Nat.leb_spec (S a) a); [lia|]. cbn [nth]. ring.
    + destruct (Nat.leb_spec a i) as [Hle|Hlt].
      * destruct (Nat.leb_spec (S a) i); [|lia].
        replace (i - a)%nat with (S (i - S a)) by lia. cbn [nth]. ring.
      * destruct (Nat.leb_spec (S a) i); [lia|]. ring.
Qed.

Lemma map_nth_seq (x : list Q) :
  forall a : nat, map (fun i => nth (i - a) x 0) (seq a (length x)) = x.
Proof.
  induction x as [|x0 x IH]; intro a; cbn [length seq map]; [reflexivity|].
  rewrite Nat.sub_diag. cbn [nth]. f_equal.
  rewrite <- (IH (S a)) at 2. apply map_ext_in. intros i Hi.
  apply in_seq in Hi. replace (i - a)%nat with (S (i - S a)) by lia. reflexivity.
Qed.

Lemma matvec_unit_rows (h : Q) (x : list Q) (A : list (list Q)) :
  Forall (fun r => length r = length x) A ->
  forall a : nat,
    veq (matvec
           (msub (map (fun i => map (fun j => if (i =? j)%nat then 1 else 0)
                                    (seq 0 (length x)))
                      (seq a (length A)))
                 (mscale h A)) x)
        (vsub (map (fun i => nth i x 0) (seq a (length A)))
              (vscale h (matvec A x))).
Proof.
  induction 1 as [|r A Hr HA IH]; intro a; cbn; [constructor|].
  constructor.
  - fold (vsub (map (fun j => if (a =? j)%nat then 1 else 0) (seq 0 (length x)))
               (vscale h r)).
    rewrite dot_sub_scale by (now rewrite length_map, length_seq).
    rewrite dot_unit_row. cbn [Nat.leb]. now rewrite Nat.sub_0_r.
  - apply IH.
Qed.

Lemma matvec_I_minus (h : Q) (x : list Q) (A : list (list Q)) :
  length A = length x -> Forall (fun r => length r = length x) A ->
  veq (matvec (msub (eye (length x)) (mscale h A)) x)
      (vsub x (vscale h (matvec A x))).
Proof.
  intros HA Hrows. unfold eye.
  pose proof (matvec_unit_rows h x A Hrows 0) as H.
  rewrite HA in H.
  rewrite (map_ext (fun i => nth i x 0) (fun i => nth (i - 0) x 0)) in H
    by (intro i; now rewrite Nat.sub_0_r).
  now rewrite map_nth_seq in H.
Qed.

Lemma step_rhs_when_stationary (h : Q) (S : list Q) :
  forall F G : list Q,
    length F = length S -> length G = length S ->
    Forall (fun q => h * q == 0) F ->
    veq (vsub S (vscale h G)) (vadd S (vscale h (vsub F G))).
Proof.
  induction S as [|s S IH]; intros [|f F] [|g G] HF HG Hz; try discriminate;
    cbn; constructor.
  - inversion Hz as [|? ? Hf _]; subst.
    transitivity (s + (h * f - h * g)); [rewrite Hf|]; ring.
  - cbn in HF, HG. injection HF as HF. injection HG as HG.
    inversion Hz; subst. apply IH; assumption.
Qed.

Lemma A_all_shape (self : INa_Rsg) (V : array Q) (m : nat) :
  length (A_all self V m) = 12%nat /\
  Forall (fun r => length r = 12%nat) (A_all self V m).
Proof. unfold_rhs. split; [reflexivity|]. repeat constructor. Qed.

(** The present state solves the system assembled for a compartment as soon
    as the step times the right-hand side vanishes there. *)
Lemma lhs_at_current_state (self : INa_Rsg) (V : array Q) (h : Q) (m : nat) :
  Forall (fun q => h * q == 0) (rhs_at self V m (column (State_value self) m)) ->
  veq (matvec (lhs self V h m) (column (State_value self) m)) (rhs_val self V h m).
Proof.
  intro HF. destruct (A_all_shape self V m) as [HlA HrA].
  pose proof (length_State_value_column self m) as HlS.
  eapply veq_trans.
  - unfold lhs. change (length (State_value self)) with 12%nat.
    rewrite <- HlS. apply matvec_I_minus; rewrite HlS; assumption.
  - unfold rhs_val, b_val. apply step_rhs_when_stationary.
    + rewrite dS_val_column. reflexivity.
    + unfold matvec. rewrite length_map. congruence.
    + rewrite dS_val_column. exact HF.
Qed.

Lemma update_state_step_equation_witness :
  let self' := written (update_state 0.02 (acst 0) demo_Na only_C1) only_C1 in
  let h := 0.02 / 2 in
  let S := column (State_value only_C1) 1 in
  let S' := column (State_value self') 1 in
  let A0 := jac only_C1 (acst 0) 0 S in
  veq (matvec (msub (eye 12) (mscale h A0)) S')
      (vadd S (vscale h (vsub (rhs_at only_C1 (acst 0) 1 S) (matvec A0 S)))).
Proof.
  apply (update_state_step_equation 0.02 (acst 0) demo_Na only_C1).
  - assert (Hw : is_written (update_state 0.02 (acst 0) demo_Na only_C1) = true)
      by (vm_compute; reflexivity).
    destruct (update_state 0.02 (acst 0) demo_Na only_C1);
      [reflexivity|discriminate Hw|discriminate Hw].
  - cbn. lia.
Defined.

(** X3.  If, in compartment [m], the half step times the right-hand side
    vanishes (the state is stationary there, or the time step is zero),
    a call of [update_state] that writes a state leaves the state of that
    compartment as it was. *)
Theorem update_state_stationary
  (env_dt : Q) (V : array Q) (Na : IonInfo) (self self' : INa_Rsg) (m : nat) :
  update_state env_dt V Na self = Written self' -> (m < varshape self)%nat ->
  Forall (fun q => env_dt / 2 * q == 0)
         (rhs_at self V m (column (State_value self) m)) ->
  veq (column (State_value self) m) (column (State_value self') m).
Proof.
  intros Hw Hm HF.
  destruct (update_state_solution _ _ _ _ _ m Hw Hm) as [Hs _].
  destruct (lhs_shape self V (env_dt / 2) m) as [Hl Hrows].
  apply (linalg_solve_unique (lhs self V (env_dt / 2) m)
           (rhs_val self V (env_dt / 2) m)).
  - rewrite Hl. apply rhs_val_length.
  - now rewrite Hl.
  - exact Hs.
  - now rewrite Hl.
  - apply lhs_at_current_state, HF.
Qed.

Lemma update_state_stationary_witness :
  veq (column (State_value overfull) 1)
      (column (State_value (written (update_state 0 (acst 0) demo_Na overfull) overfull)) 1).
Proof.
  apply (update_state_stationary 0 (acst 0) demo_Na overfull).
  - assert (Hw : is_written (update_state 0 (acst 0) demo_Na overfull) = true)
      by (vm_compute; reflexivity).
    destruct (update_state 0 (acst 0) demo_Na overfull);
      [reflexivity|discriminate Hw|discriminate Hw].
  - cbn. lia.
  - unfold_rhs. repeat (constructor; [reflexivity|]). constructor.
Defined.

(** X4.  The right-hand side of a compartment is exactly affine in the
    state: its forward-mode Jacobian is the same matrix at any two states,
    and so is the constant term [F(S) - A S]. *)
Theorem rhs_exactly_affine
  (self : INa_Rsg) (V : array Q) (m : nat) (S S' : list Q) :
  length S = 12%nat -> length S' = 12%nat ->
  jac self V m S = jac self V m S' /\
  veq (affine_term self V m S) (affine_term self V m S').
Proof.
  intros H H'. split.
  - apply jac_state_independent; assumption.
  - apply affine_term_state_independent; assumption.
Qed.

Lemma rhs_exactly_affine_witness :
  jac only_C1 (acst 10) 1 (column (State_value only_C1) 1) =
  jac only_C1 (acst 10) 1 (column (State_value overfull) 1) /\
  veq (affine_term only_C1 (acst 10) 1 (column (State_value only_C1) 1))
      (affine_term only_C1 (acst 10) 1 (column (State_value overfull) 1)).
Proof. apply rhs_exactly_affine; reflexivity. Defined.

(** ** [compute_derivative] *)

Lemma compute_derivative_frame (V : array Q) (Na : IonInfo) (self : INa_Rsg) :
  value (compute_derivative V Na self) = value self /\
  I6 (compute_derivative V Na self) = I6 self /\
  par (compute_derivative V Na self) = par self.
Proof. repeat split. Qed.

Ltac unfold_arr :=
  unfold aadd, asub, amul, adiv, amap2, acst, amaximum.


Ltac unfold_cd :=
  cbv beta iota zeta delta
    [compute_derivative derivative set_derivative StateName_eq_dec StateName_rec
     StateName_rect sumbool_rec sumbool_rect index_of column dS_val rhs State_value
     tracked map nth row amap2 aadd asub amul acst nadd nsub nmul ninj Num_Q value
     I6 par derivative_sum fold_right
     f01 f02 f03 f04 f0O fip f11 f12 f13 f14 f1n fi1 fi2 fi3 fi4 fi5 fin
     b01 b02 b03 b04 b0O bip b11 b12 b13 b14 b1n bi1 bi2 bi3 bi4 bi5 bin].

Ltac unfold_rates :=
  unfold f01, f02, f03, f04, f0O, fip, f11, f12, f13, f14, f1n, fi1, fi2, fi3, fi4,
    fi5, fin, b01, b02, b03, b04, b0O, bip, b11, b12, b13, b14, b1n, bi1, bi2, bi3,
    bi4, bi5, bin.

(** X5.  When the attribute [I6] holds the remainder of the twelve cells
    in compartment [m], the derivative that [compute_derivative] stores
    for a cell is the entry of that cell in the right-hand side [dS_val]
    that [update_state] evaluates. *)
Theorem compute_derivative_matches_rhs
  (V : array Q) (Na : IonInfo) (self : INa_Rsg) (c : StateName) (m : nat) :
  I6 self m == derived_I6 self m ->
  derivative (compute_derivative V Na self) c m ==
  nth (index_of c) (column (dS_val self V) m) 0.
Proof.
  intro H6. unfold derived_I6, aadd, asub, amap2, acst in H6.
  destruct self as [vs g p v d i6]. cbn [I6 value] in H6.
  destruct c; unfold_cd; try rewrite H6; ring.
Qed.

Lemma compute_derivative_matches_rhs_witness :
  derivative (compute_derivative V_step demo_Na only_C1_derived) C2 1%nat ==
  nth (index_of C2) (column (dS_val only_C1_derived V_step) 1%nat) 0.
Proof.
  apply (compute_derivative_matches_rhs V_step demo_Na only_C1_derived C2 1%nat).
  vm_compute. reflexivity.
Defined.

(** X6.  The twelve derivatives that [compute_derivative] stores sum, in
    every compartment, to the net flow out of the remainder:
    [I6 * (b1n + bin) - I5 * f1n - O * fin]; the flows between the tracked
    states cancel. *)
Theorem compute_derivative_sum (V : array Q) (Na : IonInfo) (self : INa_Rsg) (m : nat) :
  derivative_sum (compute_derivative V Na self) m ==
  I6 self m * (b1n self V m + bin self m)
  - value self I5 m * f1n self V m - value self O_ m * fin self m.
Proof. destruct self as [vs g p v d i6]. unfold_cd. ring. Qed.

(** ** [pre_integral] and [reset_state] on the twelve cells *)

Lemma pre_integral_value (V : array Q) (Na : IonInfo) (self : INa_Rsg)
  (c : StateName) (m : nat) :
  value (pre_integral V Na self) c m ==
  Qmax (value self c m) 0 /
    (clamped_total self (map Cell tracked) m + Qmax (derived_I6 self m) 0 + eps).
Proof.
  unfold pre_integral.
  assert (Hcells : cells_of (map Cell tracked ++ [Plain (I6 (set_I6 (derived_I6 self) self))])
                   = tracked) by reflexivity.
  rewrite normalize_value_in.
  - rewrite clamped_total_app, clamped_total_set_I6. cbn [clamped_total clamped].
    unfold aadd, amap2, amaximum, acst. cbn [I6 set_I6 value].
    apply Qdiv_comp; [reflexivity|]. lra.
  - rewrite Hcells. apply tracked_NoDup.
  - rewrite Hcells. apply tracked_complete.
Qed.

Lemma sum_cells_scaled (s s' : INa_Rsg) (D : Q) (m : nat) (l : list StateName) :
  (forall c, value s' c m == Qmax (value s c m) 0 / D) ->
  fold_right (fun c acc => aadd (value s' c) acc) (acst 0) l m ==
  clamped_total s (map Cell l) m / D.
Proof.
  intro H. induction l as [|c l IH]; cbn [fold_right map clamped_total clamped].
  - unfold acst, Qdiv. ring.
  - unfold aadd at 1 3. unfold amap2. rewrite IH, H. unfold amaximum, Qdiv. ring.
Qed.

Lemma tracked_sum_pre_integral (V : array Q) (Na : IonInfo) (self : INa_Rsg) (m : nat) :
  tracked_sum (pre_integral V Na self) m ==
  clamped_total self (map Cell tracked) m /
    (clamped_total self (map Cell tracked) m + Qmax (derived_I6 self m) 0 + eps).
Proof.
  unfold tracked_sum. apply sum_cells_scaled.
  intro c. apply pre_integral_value.
Qed.

(** X7.  After [pre_integral], whatever the cells held before, every
    tracked cell holds a value between 0 and 1 (both included), and the
    twelve cells sum to [T / (T + R + 1e-12)], where [T] is the sum of the
    clamped cells and [R] the clamped remainder of the values before the
    call. *)
Theorem pre_integral_range (V : array Q) (Na : IonInfo) (self : INa_Rsg) (m : nat) :
  (forall c : StateName,
     0 <= value (pre_integral V Na self) c m /\
     value (pre_integral V Na self) c m <= 1) /\
  tracked_sum (pre_integral V Na self) m ==
    clamped_total self (map Cell tracked) m /
      (clamped_total self (map Cell tracked) m + Qmax (derived_I6 self m) 0 + eps).
Proof.
  pose proof (clamped_total_nonneg self (map Cell tracked) m) as HT.
  pose proof (Q.le_max_r (derived_I6 self m) 0) as HR.
  pose proof eps_pos as He.
  assert (HD : 0 < clamped_total self (map Cell tracked) m
                   + Qmax (derived_I6 self m) 0 + eps) by lra.
  split; [|apply tracked_sum_pre_integral].
  intro c. rewrite pre_integral_value.
  assert (Hc : Qmax (value self c m) 0 <= clamped_total self (map Cell tracked) m).
  { apply clamped_le_total. rewrite cells_of_map_Cell. apply tracked_complete. }
  split.
  - apply Qle_shift_div_l; [exact HD|].
    pose proof (Q.le_max_r (value self c m) 0). lra.
  - apply Qle_shift_div_r; [exact HD|]. lra.
Qed.

Lemma clamped_total_nonneg_cells (self : INa_Rsg) (m : nat) (l : list StateName) :
  (forall c, 0 <= value self c m) ->
  clamped_total self (map Cell l) m ==
  fold_right (fun c acc => aadd (value self c) acc) (acst 0) l m.
Proof.
  intro H. induction l as [|c l IH]; cbn [fold_right map clamped_total clamped].
  - reflexivity.
  - unfold aadd at 1 2. unfold amap2. rewrite IH. unfold amaximum.
    rewrite (Q.max_l _ _ (H c)). reflexivity.
Qed.

Lemma derived_I6_tracked_sum (self : INa_Rsg) (m : nat) :
  derived_I6 self m == 1 - tracked_sum self m.
Proof.
  unfold derived_I6, tracked_sum, tracked. cbn [fold_right].
  unfold aadd, asub, amap2, acst. lra.
Qed.

(** X8.  When no tracked cell is negative in compartment [m],
    [pre_integral] divides every cell there by [max(sum, 1) + 1e-12],
    where [sum] is the sum of the twelve cells: a valid occupancy
    ([sum <= 1]) is scaled by [1 / (1 + 1e-12)], an overfull one is brought
    back to a sum just below 1. *)
Theorem pre_integral_nonneg_cells
  (V : array Q) (Na : IonInfo) (self : INa_Rsg) (m : nat) :
  (forall c : StateName, 0 <= value self c m) ->
  forall c : StateName,
    value (pre_integral V Na self) c m ==
    value self c m / (Qmax (tracked_sum self m) 1 + eps).
Proof.
  intros H c. rewrite pre_integral_value.
  rewrite (Q.max_l _ _ (H c)).
  apply Qdiv_comp; [reflexivity|].
  rewrite (clamped_total_nonneg_cells self m tracked H).
  fold (tracked_sum self). rewrite derived_I6_tracked_sum.
  destruct (Qlt_le_dec (tracked_sum self m) 1) as [Hlt|Hge].
  - rewrite (Q.max_l (1 - tracked_sum self m) 0) by lra.
    rewrite (Q.max_r (tracked_sum self m) 1) by lra. ring.
  - rewrite (Q.max_r (1 - tracked_sum self m) 0) by lra.
    rewrite (Q.max_l (tracked_sum self m) 1) by lra. ring.
Qed.

Lemma pre_integral_nonneg_cells_witness :
  value (pre_integral V_step demo_Na overfull) C1 1%nat ==
  value overfull C1 1%nat / (Qmax (tracked_sum overfull 1%nat) 1 + eps).
Proof.
  apply (pre_integral_nonneg_cells V_step demo_Na overfull 1%nat).
  intro c. destruct c; vm_compute; discriminate.
Defined.


(** ** What the methods leave alone *)

Lemma same_but_values_refl (s : INa_Rsg) : same_but_values s s.
Proof. repeat split. Qed.

Lemma same_but_values_trans (s1 s2 s3 : INa_Rsg) :
  same_but_values s1 s2 -> same_but_values s2 s3 -> same_but_values s1 s3.
Proof.
  unfold same_but_values.
  intros (A1 & A2 & A3 & A4 & A5) (B1 & B2 & B3 & B4 & B5).
  repeat split; congruence.
Qed.

Lemma same_but_values_set_value (c : StateName) (a : array Q) (s : INa_Rsg) :
  same_but_values s (set_value c a s).
Proof. repeat split. Qed.

Lemma clamp_loop_frame (l : list entry) :
  forall (t : array Q) (s : INa_Rsg),
    same_but_values s (snd (fold_left clamp_step l (t, s))).
Proof.
  induction l as [|e l IH]; intros t s; cbn [fold_left].
  - apply same_but_values_refl.
  - destruct e as [c|a]; cbn [clamp_step].
    + eapply same_but_values_trans; [|apply IH]. apply same_but_values_set_value.
    + apply IH.
Qed.

Lemma divide_loop_frame (d : array Q) (l : list entry) :
  forall s : INa_Rsg, same_but_values s (fold_left (divide_step d) l s).
Proof.
  induction l as [|e l IH]; intros s; cbn [fold_left].
  - apply same_but_values_refl.
  - destruct e as [c|a]; cbn [divide_step].
    + eapply same_but_values_trans; [|apply IH]. apply same_but_values_set_value.
    + apply IH.
Qed.

Lemma write_back_frame (L : list (list Q)) (self : INa_Rsg) :
  same_but_values self (write_back L self).
Proof. repeat split. Qed.

(** X9.  [normalize_states] changes nothing but the values of the cells
    it is given: a cell that is not in the list keeps its value, and the
    size, [g_max], the parameters, the derivative slots and the attribute
    [I6] stay as they were. *)
Theorem normalize_states_frame (states : list entry) (self : INa_Rsg) (c : StateName) :
  ~ In c (cells_of states) ->
  value (normalize_states states self) c = value self c /\
  same_but_values self (normalize_states states self).
Proof.
  intro Hn. split; [apply normalize_value_out, Hn|].
  rewrite normalize_states_eq.
  eapply same_but_values_trans; [apply clamp_loop_frame|apply divide_loop_frame].
Qed.

Lemma normalize_states_frame_witness :
  value (normalize_states [Cell C1; Cell C2] overfull) O_ = value overfull O_ /\
  same_but_values overfull (normalize_states [Cell C1; Cell C2] overfull).
Proof.
  apply (normalize_states_frame [Cell C1; Cell C2] overfull O_).
  cbn. intuition discriminate.
Defined.

Lemma reset_state_value (V : array Q) (Na : IonInfo) (self : INa_Rsg)
  (c : StateName) (m : nat) :
  value (reset_state V Na self) c m ==
  Qmax (value self c m) 0 /
    (clamped_total self (map Cell tracked) m + Qmax (derived_I6 self m) 0 + eps).
Proof.
  unfold reset_state.
  assert (Hcells : cells_of (map Cell tracked ++ [Plain (I6 (set_I6 (derived_I6 self) self))])
                   = tracked) by reflexivity.
  rewrite normalize_value_in.
  - rewrite clamped_total_app, clamped_total_set_I6. cbn [clamped_total clamped].
    unfold aadd, amap2, amaximum, acst. cbn [I6 set_I6 value].
    apply Qdiv_comp; [reflexivity|]. lra.
  - rewrite Hcells. apply tracked_NoDup.
  - rewrite Hcells. apply tracked_complete.
Qed.

Lemma reset_after_init_value (V : array Q) (Na : IonInfo) (self : INa_Rsg)
  (c : StateName) (m : nat) :
  value (reset_state V Na (init_state V Na self)) c m == 0.
Proof.
  assert (H := reset_state_value V Na (init_state V Na self) c m).
  assert (H' : value (init_state V Na self) c m = 0) by reflexivity.
  rewrite H' in H. rewrite (Q.max_l 0 0) in H by lra.
  rewrite H. apply Qmult_0_l.
Qed.

(** X10.  [reset_state] right after [init_state] leaves every tracked cell
    at zero and sets the attribute [I6] to one in every compartment, so
    that the current of the channel is zero at any voltage. *)
Theorem reset_after_init
  (V V' : array Q) (Na Na' : IonInfo) (self : INa_Rsg) (c : StateName) (m : nat) :
  let self' := reset_state V Na (init_state V Na self) in
  value self' c m == 0 /\ I6 self' m == 1 /\ fst (current V' Na' self') m == 0.
Proof.
  cbv zeta. split; [apply reset_after_init_value|]. split.
  - unfold reset_state. rewrite I6_normalize_states. reflexivity.
  - unfold current. cbn [fst]. unfold amul, asub, amap2.
    assert (H := reset_after_init_value V Na self O_ m).
    rewrite H. rewrite Qmult_0_r. apply Qmult_0_l.
Qed.

(** X11.  A call of [update_state] that writes a state writes the values
    of the twelve cells only: the attribute [I6], the derivative slots,
    the parameters, [g_max] and the size are those of the call. *)
Theorem update_state_frame
  (env_dt : Q) (V : array Q) (Na : IonInfo) (self self' : INa_Rsg) :
  update_state env_dt V Na self = Written self' -> same_but_values self self'.
Proof.
  intro Hw. apply update_state_Written_inv in Hw.
  destruct Hw as (_ & L & _ & ->). apply write_back_frame.
Qed.

Lemma update_state_frame_witness :
  same_but_values overfull (written (update_state 0 (acst 0) demo_Na overfull) overfull).
Proof.
  apply (update_state_frame 0 (acst 0) demo_Na overfull).
  assert (Hw : is_written (update_state 0 (acst 0) demo_Na overfull) = true)
    by (vm_compute; reflexivity).
  destruct (update_state 0 (acst 0) demo_Na overfull);
    [reflexivity|discriminate Hw|discriminate Hw].
Defined.

(** X12.  The Jacobian [A_all] that [update_state] builds for a
    compartment depends on the voltage array through its entry 0 only: two
    voltage arrays that agree at index 0 give the same matrix for every
    compartment. *)
Theorem A_all_reads_V0 (self : INa_Rsg) (V V' : array Q) (m : nat) :
  V 0%nat = V' 0%nat -> A_all self V m = A_all self V' m.
Proof.
  intro H. unfold_rhs. unfold_rates. rewrite H. reflexivity.
Qed.

Lemma A_all_reads_V0_witness :
  A_all only_C1 V_step 1%nat = A_all only_C1 (acst 10) 1%nat.
Proof. apply (A_all_reads_V0 only_C1 V_step (acst 10) 1%nat). reflexivity. Defined.

(** ** Time step and batch axis of [update_state] *)

Lemma jac_same_voltage (self : INa_Rsg) (V : array Q) (m : nat) (S : list Q) :
  V m = V 0%nat -> length S = 12%nat -> jac self V m S = jac self V 0 S.
Proof.
  intros H HS. list12 S. unfold_rhs. unfold_rates. rewrite H. reflexivity.
Qed.

(** C1, as stated, fails: at [only_C1] with every voltage at 0 mV and an
    environment time step of 0.02, the state written for compartment 1
    misses the equation with the full time step by more than 0.5 in its
    first entry. *)
Lemma C1_full_step_counterexample :
  let o := update_state 0.02 (acst 0) demo_Na only_C1 in
  let S := column (State_value only_C1) 1 in
  let S' := column (State_value (written o only_C1)) 1 in
  let A := jac only_C1 (acst 0) 1 S in
  let b := vsub (rhs_at only_C1 (acst 0) 1 S) (matvec A S) in
  is_written o = true /\
  0.5 < Qabs (nth 0 (matvec (msub (eye 12) (mscale 0.02 A)) S') 0
              - nth 0 (vadd S (vscale 0.02 b)) 0).
Proof. vm_compute. split; reflexivity. Qed.

(** C1 (amended): when [update_state] writes a state, then in every
    compartment [m] whose voltage is that of compartment 0 the written
    state [S'] solves [(I - h A) S' = S + h b], where [h] is half the
    environment's time step, [A] the Jacobian of the right-hand side at
    the state and the voltage of the compartment, and [b = F(S) - A S]. *)
Theorem C1_update_state_half_step
  (env_dt : Q) (V : array Q) (Na : IonInfo) (self self' : INa_Rsg) (m : nat) :
  update_state env_dt V Na self = Written self' -> (m < varshape self)%nat ->
  V m = V 0%nat ->
  let h := env_dt / 2 in
  let S := column (State_value self) m in
  let S' := column (State_value self') m in
  let A := jac self V m S in
  let b := vsub (rhs_at self V m S) (matvec A S) in
  veq (matvec (msub (eye 12) (mscale h A)) S') (vadd S (vscale h b)).
Proof.
  intros Hw Hm HV h S S' A b.
  destruct (update_state_solution _ _ _ _ _ m Hw Hm) as [_ Heq].
  unfold lhs, rhs_val, b_val in Heq.
  rewrite dS_val_column, A_all_eq_jac0 in Heq.
  unfold b, A.
  rewrite (jac_same_voltage self V m S HV (length_State_value_column self m)).
  exact Heq.
Qed.

Lemma C1_update_state_half_step_witness :
  let self' := written (update_state 0.02 (acst 0) demo_Na only_C1) only_C1 in
  let h := 0.02 / 2 in
  let S := column (State_value only_C1) 1 in
  let S' := column (State_value self') 1 in
  let A := jac only_C1 (acst 0) 1 S in
  let b := vsub (rhs_at only_C1 (acst 0) 1 S) (matvec A S) in
  veq (matvec (msub (eye 12) (mscale h A)) S') (vadd S (vscale h b)).
Proof.
  apply (C1_update_state_half_step 0.02 (acst 0) demo_Na only_C1).
  - assert (Hw : is_written (update_state 0.02 (acst 0) demo_Na only_C1) = true)
      by (vm_compute; reflexivity).
    destruct (update_state 0.02 (acst 0) demo_Na only_C1);
      [reflexivity|discriminate Hw|discriminate Hw].
  - cbn. lia.
  - reflexivity.
Defined.

(** C6 fails on the code at [only_C1] with the voltages [V_rest_10] (0 mV
    in compartment 0, 10 mV in compartment 1) and a time step of 0.02: the
    term [b_val] of compartment 1 re-derived at the written state differs
    from the one at the state before the step by more than 100 in its
    first entry.  The matrix of compartment 1 is the Jacobian at the
    voltage of compartment 0, so that [b_val] is not the constant term of
    the right-hand side of compartment 1. *)
Theorem C6_rederived_b_differs :
  let o := update_state 0.02 V_rest_10 demo_Na only_C1 in
  let self' := written o only_C1 in
  is_written o = true /\
  100 < Qabs (nth 0 (b_val self' V_rest_10 1) 0 - nth 0 (b_val only_C1 V_rest_10 1) 0).
Proof. vm_compute. split; reflexivity. Qed.

(** C9 fails on the code: [only_C1] is stepped once with the voltages
    [V_rest_10] (0 mV and 10 mV) and once with 10 mV in both compartments.
    Compartment 1 has the same state and the same voltage in both runs,
    yet the value written to its cell [C1] is negative in the first run
    and positive in the second: the state written for a compartment
    depends on the voltage of compartment 0. *)
Theorem C9_batch_coupling :
  let o1 := update_state 0.02 V_rest_10 demo_Na only_C1 in
  let o2 := update_state 0.02 (acst 10) demo_Na only_C1 in
  V_rest_10 1%nat = 10 /\
  is_written o1 = true /\ is_written o2 = true /\
  value (written o1 only_C1) C1 1%nat < 0 /\
  0 < value (written o2 only_C1) C1 1%nat.
Proof. vm_compute. repeat split; reflexivity. Qed.

(** * [INa_p3q_markov] *)

Lemma p3q_reset_state_run
  (V : array Q) (Na : IonInfo) (self : p3q.INa_p3q_markov) (ap bp aq bq : array Q) :
  p3q.f_p_alpha (p3q.hooks self) V = p3q.Ok ap ->
  p3q.f_p_beta (p3q.hooks self) V = p3q.Ok bp ->
  p3q.f_q_alpha (p3q.hooks self) V = p3q.Ok aq ->
  p3q.f_q_beta (p3q.hooks self) V = p3q.Ok bq ->
  p3q.reset_state V Na self =
  (p3q.Ok tt,
   p3q.mkINa_p3q_markov (p3q.hooks self) (p3q.phi self) (p3q.g_max self)
     (adiv ap (aadd ap bp)) (adiv aq (aadd aq bq))
     (p3q.p_derivative self) (p3q.q_derivative self)).
Proof.
  intros H1 H2 H3 H4.
  unfold p3q.reset_state, p3q.bind, p3q.call, p3q.set_p, p3q.set_q.
  cbn [p3q.hooks p3q.phi p3q.g_max p3q.p p3q.q p3q.p_derivative p3q.q_derivative].
  rewrite H1, H2, H3, H4. reflexivity.
Qed.

Lemma p3q_compute_derivative_run
  (V : array Q) (Na : IonInfo) (self : p3q.INa_p3q_markov) (ap bp aq bq : array Q) :
  p3q.f_p_alpha (p3q.hooks self) V = p3q.Ok ap ->
  p3q.f_p_beta (p3q.hooks self) V = p3q.Ok bp ->
  p3q.f_q_alpha (p3q.hooks self) V = p3q.Ok aq ->
  p3q.f_q_beta (p3q.hooks self) V = p3q.Ok bq ->
  p3q.compute_derivative V Na self =
  (p3q.Ok tt,
   p3q.mkINa_p3q_markov (p3q.hooks self) (p3q.phi self) (p3q.g_max self)
     (p3q.p self) (p3q.q self)
     (amul (p3q.phi self)
        (asub (amul ap (asub (acst 1) (p3q.p self))) (amul bp (p3q.p self))))
     (amul (p3q.phi self)
        (asub (amul aq (asub (acst 1) (p3q.q self))) (amul bq (p3q.q self))))).
Proof.
  intros H1 H2 H3 H4.
  unfold p3q.compute_derivative, p3q.bind, p3q.call, p3q.read,
    p3q.set_p_derivative, p3q.set_q_derivative.
  cbn [p3q.hooks p3q.phi p3q.g_max p3q.p p3q.q p3q.p_derivative p3q.q_derivative].
  rewrite H1, H2, H3, H4. reflexivity.
Qed.


(** X13.  When the four rate methods return and the rates of each gate do
    not sum to zero in compartment [m], [reset_state] followed by
    [compute_derivative] at the same voltage returns normally and stores
    derivatives that vanish there: [reset_state] puts both gates at their
    stationary values. *)
Theorem p3q_reset_state_stationary
  (V : array Q) (Na : IonInfo) (self : p3q.INa_p3q_markov)
  (ap bp aq bq : array Q) (m : nat) :
  p3q.f_p_alpha (p3q.hooks self) V = p3q.Ok ap ->
  p3q.f_p_beta (p3q.hooks self) V = p3q.Ok bp ->
  p3q.f_q_alpha (p3q.hooks self) V = p3q.Ok aq ->
  p3q.f_q_beta (p3q.hooks self) V = p3q.Ok bq ->
  ~ ap m + bp m == 0 -> ~ aq m + bq m == 0 ->
  let self1 := snd (p3q.reset_state V Na self) in
  let self2 := snd (p3q.compute_derivative V Na self1) in
  fst (p3q.reset_state V Na self) = p3q.Ok tt /\
  fst (p3q.compute_derivative V Na self1) = p3q.Ok tt /\
  p3q.p_derivative self2 m == 0 /\ p3q.q_derivative self2 m == 0.
Proof.
  intros H1 H2 H3 H4 Hp Hq. cbv zeta.
  rewrite (p3q_reset_state_run V Na self ap bp aq bq H1 H2 H3 H4). cbn [fst snd].
  set (self1 := p3q.mkINa_p3q_markov _ _ _ _ _ _ _).
  rewrite (p3q_compute_derivative_run V Na self1 ap bp aq bq H1 H2 H3 H4).
  subst self1. cbn [fst snd].
  cbn [p3q.p_derivative p3q.q_derivative p3q.p p3q.q p3q.phi].
  unfold amul, asub, adiv, aadd, amap2, acst.
  repeat split; field; assumption.
Qed.

Lemma p3q_reset_state_stationary_witness :
  let self := p3q.demo (p3q.const_hooks 3 1 2 6) in
  let self1 := snd (p3q.reset_state (acst 0) demo_Na self) in
  let self2 := snd (p3q.compute_derivative (acst 0) demo_Na self1) in
  fst (p3q.reset_state (acst 0) demo_Na self) = p3q.Ok tt /\
  fst (p3q.compute_derivative (acst 0) demo_Na self1) = p3q.Ok tt /\
  p3q.p_derivative self2 0%nat == 0 /\ p3q.q_derivative self2 0%nat == 0.
Proof.
  apply (p3q_reset_state_stationary (acst 0) demo_Na (p3q.demo (p3q.const_hooks 3 1 2 6))
           (acst 3) (acst 1) (acst 2) (acst 6) 0%nat);
    try reflexivity; vm_compute; discriminate.
Defined.

(** X14.  The derivative that [compute_derivative] stores for a gate is
    [phi * (alpha + beta) * (alpha / (alpha + beta) - gate)] wherever the
    rates of the gate do not sum to zero: for positive [phi] and rates the
    gate moves towards [alpha / (alpha + beta)]. *)
Theorem p3q_compute_derivative_relaxation
  (V : array Q) (Na : IonInfo) (self : p3q.INa_p3q_markov)
  (ap bp aq bq : array Q) (m : nat) :
  p3q.f_p_alpha (p3q.hooks self) V = p3q.Ok ap ->
  p3q.f_p_beta (p3q.hooks self) V = p3q.Ok bp ->
  p3q.f_q_alpha (p3q.hooks self) V = p3q.Ok aq ->
  p3q.f_q_beta (p3q.hooks self) V = p3q.Ok bq ->
  ~ ap m + bp m == 0 -> ~ aq m + bq m == 0 ->
  let self' := snd (p3q.compute_derivative V Na self) in
  p3q.p_derivative self' m ==
    p3q.phi self m * (ap m + bp m) * (ap m / (ap m + bp m) - p3q.p self m) /\
  p3q.q_derivative self' m ==
    p3q.phi self m * (aq m + bq m) * (aq m / (aq m + bq m) - p3q.q self m) /\
  p3q.p self' = p3q.p self /\ p3q.q self' = p3q.q self.
Proof.
  intros H1 H2 H3 H4 Hp Hq. cbv zeta.
  rewrite (p3q_compute_derivative_run V Na self ap bp aq bq H1 H2 H3 H4). cbn [fst snd].
  cbn [p3q.p_derivative p3q.q_derivative p3q.p p3q.q p3q.phi].
  unfold amul, asub, adiv, aadd, amap2, acst.
  repeat split; field; assumption.
Qed.

Lemma p3q_compute_derivative_relaxation_witness :
  let self := p3q.demo (p3q.const_hooks 3 1 2 6) in
  let self' := snd (p3q.compute_derivative (acst 0) demo_Na self) in
  p3q.p_derivative self' 0%nat ==
    p3q.phi self 0%nat * (3 + 1) * (3 / (3 + 1) - p3q.p self 0%nat) /\
  p3q.q_derivative self' 0%nat ==
    p3q.phi self 0%nat * (2 + 6) * (2 / (2 + 6) - p3q.q self 0%nat) /\
  p3q.p self' = p3q.p self /\ p3q.q self' = p3q.q self.
Proof.
  apply (p3q_compute_derivative_relaxation (acst 0) demo_Na
           (p3q.demo (p3q.const_hooks 3 1 2 6))
           (acst 3) (acst 1) (acst 2) (acst 6) 0%nat);
    try reflexivity; vm_compute; discriminate.
Defined.

(** X15.  When a call of the first rate method raises, [reset_state] and
    [compute_derivative] raise the same exception and leave the instance
    as it was; this is what both do on [INa_p3q_markov] itself, whose rate
    methods raise [NotImplementedError]. *)
Theorem p3q_rate_method_raises
  (V : array Q) (Na : IonInfo) (self : p3q.INa_p3q_markov) (exc : string) :
  p3q.f_p_alpha (p3q.hooks self) V = p3q.Raise exc ->
  p3q.reset_state V Na self = (p3q.Raise exc, self) /\
  p3q.compute_derivative V Na self = (p3q.Raise exc, self).
Proof.
  intro H. split.
  - unfold p3q.reset_state, p3q.bind, p3q.call. rewrite H. reflexivity.
  - unfold p3q.compute_derivative, p3q.bind, p3q.call, p3q.read. rewrite H. reflexivity.
Qed.

Lemma p3q_rate_method_raises_witness :
  p3q.reset_state (acst 0) demo_Na (p3q.demo p3q.base_hooks) =
    (p3q.Raise "NotImplementedError", p3q.demo p3q.base_hooks) /\
  p3q.compute_derivative (acst 0) demo_Na (p3q.demo p3q.base_hooks) =
    (p3q.Raise "NotImplementedError", p3q.demo p3q.base_hooks).
Proof.
  apply (p3q_rate_method_raises (acst 0) demo_Na (p3q.demo p3q.base_hooks)
           "NotImplementedError").
  reflexivity.
Defined.

(** ** Subclasses with positive rates *)














(** ** Order of the entries *)

Lemma cells_of_Permutation (l l' : list entry) :
  Permutation l l' -> Permutation (cells_of l) (cells_of l').
Proof.
  induction 1 as [|e l l' _ IH|e1 e2 l|l1 l2 l3 _ IH1 _ IH2].
  - constructor.
  - destruct e; cbn; [constructor|]; assumption.
  - destruct e1, e2; cbn; try apply Permutation_refl; try constructor;
      try apply Permutation_refl.
  - eapply Permutation_trans; eassumption.
Qed.

Lemma clamped_total_Permutation (self : INa_Rsg) (m : nat) (l l' : list entry) :
  Permutation l l' -> clamped_total self l m == clamped_total self l' m.
Proof.
  induction 1 as [|e l l' _ IH|e1 e2 l|l1 l2 l3 _ IH1 _ IH2];
    cbn [clamped_total]; unfold aadd, amap2.
  - reflexivity.
  - rewrite IH. reflexivity.
  - ring.
  - rewrite IH1. exact IH2.
Qed.

(** X19.  For a list of pairwise distinct cells (and any plain arrays),
    the values that [normalize_states] leaves do not depend on the order
    of the list. *)
Theorem normalize_states_order
  (l l' : list entry) (self : INa_Rsg) (c : StateName) (m : nat) :
  Permutation l l' -> NoDup (cells_of l) ->
  value (normalize_states l self) c m == value (normalize_states l' self) c m.
Proof.
  intros HP Hnd. pose proof (cells_of_Permutation l l' HP) as HPc.
  destruct (in_dec StateName_eq_dec c (cells_of l)) as [Hin|Hout].
  - assert (H1 := normalize_value_in l self c m Hnd Hin).
    assert (H2 := normalize_value_in l' self c m
                    (Permutation_NoDup HPc Hnd) (Permutation_in c HPc Hin)).
    rewrite H1, H2. rewrite (clamped_total_Permutation self m l l' HP). reflexivity.
  - assert (Hout' : ~ In c (cells_of l')).
    { intro H. apply Hout. apply (Permutation_in c (Permutation_sym HPc) H). }
    rewrite (normalize_value_out l self c Hout), (normalize_value_out l' self c Hout').
    reflexivity.
Qed.

Lemma normalize_states_order_witness :
  value (normalize_states [Cell C1; Plain (acst 0.5); Cell C2] overfull) C2 0%nat ==
  value (normalize_states [Cell C2; Cell C1; Plain (acst 0.5)] overfull) C2 0%nat.
Proof.
  apply (normalize_states_order [Cell C1; Plain (acst 0.5); Cell C2]
           [Cell C2; Cell C1; Plain (acst 0.5)] overfull C2 0%nat).
  - apply Permutation_sym.
    apply (Permutation_trans (perm_swap (Cell C1) (Cell C2) [Plain (acst 0.5)])).
    apply perm_skip, perm_swap.
  - repeat constructor; cbn; intuition discriminate.
Defined.

(** ** Conservation on a valid occupancy *)

Lemma tracked_sum_nonneg (self : INa_Rsg) (m : nat) :
  (forall c, 0 <= value self c m) -> 0 <= tracked_sum self m.
Proof.
  intro H. unfold tracked_sum.
  rewrite <- (clamped_total_nonneg_cells self m tracked H).
  apply clamped_total_nonneg.
Qed.

(** X20.  When no tracked cell is negative and the twelve cells sum to
    [s <= 1] in compartment [m], then after [pre_integral] the cells sum
    to [s / (1 + 1e-12)] there and the attribute [I6] holds [1 - s]. *)
Theorem pre_integral_valid_total
  (V : array Q) (Na : IonInfo) (self : INa_Rsg) (m : nat) :
  (forall c : StateName, 0 <= value self c m) -> tracked_sum self m <= 1 ->
  let self' := pre_integral V Na self in
  tracked_sum self' m == tracked_sum self m / (1 + eps) /\
  I6 self' m == 1 - tracked_sum self m.
Proof.
  intros H Hle. cbv zeta.
  assert (HI : I6 (pre_integral V Na self) m == 1 - tracked_sum self m).
  { unfold pre_integral. rewrite I6_normalize_states. cbn [I6 set_I6].
    apply derived_I6_tracked_sum. }
  assert (HS : tracked_sum (pre_integral V Na self) m ==
               tracked_sum self m / (1 + eps)).
  { rewrite tracked_sum_pre_integral.
    rewrite (clamped_total_nonneg_cells self m tracked H).
    fold (tracked_sum self). rewrite derived_I6_tracked_sum.
    rewrite (Q.max_l (1 - tracked_sum self m) 0) by lra.
    apply Qdiv_comp; [reflexivity|ring]. }
  split; assumption.
Qed.

Lemma pre_integral_valid_total_witness :
  tracked_sum (pre_integral V_step demo_Na only_C1) 1%nat ==
    tracked_sum only_C1 1%nat / (1 + eps) /\
  I6 (pre_integral V_step demo_Na only_C1) 1%nat == 1 - tracked_sum only_C1 1%nat.
Proof.
  apply (pre_integral_valid_total V_step demo_Na only_C1 1%nat).
  - intro c. destruct c; vm_compute; discriminate.
  - vm_compute. discriminate.
Defined.

(** * [INa_Rsg_B] *)

Ltac unfold_B :=
  cbv beta iota zeta delta
    [RsgB.compute_derivative RsgB.derivative RsgB.set_derivative RsgB.set_value
     RsgB.set_B RsgB.StateName_eq_dec RsgB.StateName_rec RsgB.StateName_rect
     sumbool_rec sumbool_rect RsgB.cells RsgB.value RsgB.B RsgB.par
     RsgB.derivative_sum RsgB.cell_sum RsgB.clamped_sum RsgB.derived_B
     RsgB.normalize_states RsgB.clamp_step RsgB.divide_step
     RsgB.init_state RsgB.pre_integral RsgB.reset_state RsgB.current
     fold_right fold_left map amap2 aadd asub amul adiv acst amaximum fst snd
     RsgB.f01 RsgB.f02 RsgB.f03 RsgB.f04 RsgB.f0O RsgB.fip RsgB.f11 RsgB.f12
     RsgB.f13 RsgB.f14 RsgB.f1n RsgB.fi1 RsgB.fi2 RsgB.fi3 RsgB.fi4 RsgB.fi5
     RsgB.fin RsgB.b01 RsgB.b02 RsgB.b03 RsgB.b04 RsgB.b0O RsgB.bip RsgB.b11
     RsgB.b12 RsgB.b13 RsgB.b14 RsgB.b1n RsgB.bi1 RsgB.bi2 RsgB.bi3 RsgB.bi4
     RsgB.bi5 RsgB.bin].

(** X21.  The twelve derivatives that [compute_derivative] of [INa_Rsg_B]
    stores sum, in every compartment, to the net flow out of the blocked
    state: [B * bip - O * fip]; the flows between the twelve cells
    cancel. *)
Theorem RsgB_compute_derivative_sum
  (V : array Q) (Na : IonInfo) (self : RsgB.INa_Rsg_B) (m : nat) :
  RsgB.derivative_sum (RsgB.compute_derivative V Na self) m ==
  RsgB.B self m * RsgB.bip self V m - RsgB.value self RsgB.O_ m * RsgB.fip self V m.
Proof. destruct self as [vs g p v d b]. unfold_B. ring. Qed.

Lemma RsgB_pre_integral_value
  (V : array Q) (Na : IonInfo) (self : RsgB.INa_Rsg_B) (c : RsgB.StateName) (m : nat) :
  RsgB.value (RsgB.pre_integral V Na self) c m ==
  Qmax (RsgB.value self c m) 0 /
    (RsgB.clamped_sum self m + Qmax (RsgB.derived_B self m) 0 + eps).
Proof.
  destruct self as [vs g p v d b].
  destruct c; unfold_B; (apply Qdiv_comp; [reflexivity|]); lra.
Qed.

Lemma RsgB_reset_state_value
  (V : array Q) (Na : IonInfo) (self : RsgB.INa_Rsg_B) (c : RsgB.StateName) (m : nat) :
  RsgB.value (RsgB.reset_state V Na self) c m ==
  Qmax (RsgB.value self c m) 0 / (RsgB.clamped_sum self m + eps).
Proof.
  destruct self as [vs g p v d b].
  destruct c; unfold_B; (apply Qdiv_comp; [reflexivity|]); lra.
Qed.

Lemma RsgB_sum_scaled (s s' : RsgB.INa_Rsg_B) (D : Q) (m : nat) (l : list RsgB.StateName) :
  (forall c, RsgB.value s' c m == Qmax (RsgB.value s c m) 0 / D) ->
  fold_right (fun c acc => aadd (RsgB.value s' c) acc) (acst 0) l m ==
  fold_right (fun c acc => aadd (amaximum (RsgB.value s c) 0) acc) (acst 0) l m / D.
Proof.
  intro H. induction l as [|c l IH]; cbn [fold_right].
  - unfold acst, Qdiv. ring.
  - unfold aadd at 1 3. unfold amap2. rewrite IH, H. unfold amaximum, Qdiv. ring.
Qed.

Lemma RsgB_clamped_sum_nonneg_cells (s : RsgB.INa_Rsg_B) (m : nat) (l : list RsgB.StateName) :
  (forall c, 0 <= RsgB.value s c m) ->
  fold_right (fun c acc => aadd (amaximum (RsgB.value s c) 0) acc) (acst 0) l m ==
  fold_right (fun c acc => aadd (RsgB.value s c) acc) (acst 0) l m.
Proof.
  intro H. induction l as [|c l IH]; cbn [fold_right].
  - reflexivity.
  - unfold aadd at 1 3. unfold amap2. rewrite IH. unfold amaximum.
    rewrite (Q.max_l _ _ (H c)). reflexivity.
Qed.

Lemma RsgB_cell_sum_nonneg (s : RsgB.INa_Rsg_B) (m : nat) (l : list RsgB.StateName) :
  (forall c, 0 <= RsgB.value s c m) ->
  0 <= fold_right (fun c acc => aadd (RsgB.value s c) acc) (acst 0) l m.
Proof.
  intro H. induction l as [|c l IH]; cbn [fold_right].
  - unfold acst. lra.
  - unfold aadd at 1. unfold amap2. pose proof (H c). lra.
Qed.

Lemma RsgB_derived_B_cell_sum (self : RsgB.INa_Rsg_B) (m : nat) :
  RsgB.derived_B self m == 1 - RsgB.cell_sum self m.
Proof.
  unfold RsgB.derived_B, RsgB.cell_sum, RsgB.cells. cbn [fold_right].
  unfold aadd, asub, amap2, acst. lra.
Qed.

Lemma RsgB_B_pre_integral (V : array Q) (Na : IonInfo) (self : RsgB.INa_Rsg_B) :
  RsgB.B (RsgB.pre_integral V Na self) = RsgB.derived_B self.
Proof. reflexivity. Qed.

Lemma RsgB_B_reset_state (V : array Q) (Na : IonInfo) (self : RsgB.INa_Rsg_B) :
  RsgB.B (RsgB.reset_state V Na self) = RsgB.B self.
Proof. reflexivity. Qed.

(** X22.  [init_state] of [INa_Rsg_B], also when followed by
    [reset_state], leaves every one of the twelve cells and the attribute
    [B] at zero; the first [pre_integral] then sets [B] to one and keeps
    the cells at zero. *)
Theorem RsgB_lifecycle_start
  (V : array Q) (Na : IonInfo) (self : RsgB.INa_Rsg_B) (c : RsgB.StateName) (m : nat) :
  let s0 := RsgB.init_state V Na self in
  let s1 := RsgB.reset_state V Na s0 in
  let s2 := RsgB.pre_integral V Na s1 in
  (RsgB.value s0 c m == 0 /\ RsgB.B s0 m == 0) /\
  (RsgB.value s1 c m == 0 /\ RsgB.B s1 m == 0) /\
  (RsgB.value s2 c m == 0 /\ RsgB.B s2 m == 1).
Proof.
  destruct self as [vs g p v d b]. cbv zeta.
  repeat split; destruct c; vm_compute; reflexivity.
Qed.

(** X23.  For [INa_Rsg_B], when no cell is negative and the twelve cells
    sum to [s <= 1] in compartment [m], then after [pre_integral] the
    cells sum to [s / (1 + 1e-12)] there and the attribute [B] holds
    [1 - s]. *)
Theorem RsgB_pre_integral_valid_total
  (V : array Q) (Na : IonInfo) (self : RsgB.INa_Rsg_B) (m : nat) :
  (forall c : RsgB.StateName, 0 <= RsgB.value self c m) ->
  RsgB.cell_sum self m <= 1 ->
  let self' := RsgB.pre_integral V Na self in
  RsgB.cell_sum self' m == RsgB.cell_sum self m / (1 + eps) /\
  RsgB.B self' m == 1 - RsgB.cell_sum self m.
Proof.
  intros H Hle. cbv zeta.
  rewrite RsgB_B_pre_integral, RsgB_derived_B_cell_sum.
  assert (HS : RsgB.cell_sum (RsgB.pre_integral V Na self) m ==
               RsgB.cell_sum self m / (1 + eps)).
  { unfold RsgB.cell_sum at 1.
    rewrite (RsgB_sum_scaled self (RsgB.pre_integral V Na self)
               (RsgB.clamped_sum self m + Qmax (RsgB.derived_B self m) 0 + eps) m
               RsgB.cells (fun c => RsgB_pre_integral_value V Na self c m)).
    fold (RsgB.clamped_sum self).
    assert (HC : RsgB.clamped_sum self m == RsgB.cell_sum self m)
      by apply (RsgB_clamped_sum_nonneg_cells self m RsgB.cells H).
    rewrite HC, RsgB_derived_B_cell_sum.
    rewrite (Q.max_l (1 - RsgB.cell_sum self m) 0) by lra.
    apply Qdiv_comp; [reflexivity|ring]. }
  split; [exact HS|reflexivity].
Qed.

Lemma RsgB_pre_integral_valid_total_witness :
  RsgB.cell_sum (RsgB.pre_integral V_step demo_Na RsgB.partly_open) 1%nat ==
    RsgB.cell_sum RsgB.partly_open 1%nat / (1 + eps) /\
  RsgB.B (RsgB.pre_integral V_step demo_Na RsgB.partly_open) 1%nat ==
    1 - RsgB.cell_sum RsgB.partly_open 1%nat.
Proof.
  apply (RsgB_pre_integral_valid_total V_step demo_Na RsgB.partly_open 1%nat).
  - intro c. destruct c; vm_compute; discriminate.
  - vm_compute. discriminate.
Defined.

(** X24.  [reset_state] of [INa_Rsg_B] normalizes the twelve cells among
    themselves and leaves the attribute [B] as it is: with no negative
    cell and a cell sum [s] in compartment [m], the cells sum to
    [s / (s + 1e-12)] afterwards, whatever [B] holds. *)
Theorem RsgB_reset_state_ignores_B
  (V : array Q) (Na : IonInfo) (self : RsgB.INa_Rsg_B) (m : nat) :
  (forall c : RsgB.StateName, 0 <= RsgB.value self c m) ->
  let self' := RsgB.reset_state V Na self in
  RsgB.cell_sum self' m == RsgB.cell_sum self m / (RsgB.cell_sum self m + eps) /\
  RsgB.B self' = RsgB.B self.
Proof.
  intros H. cbv zeta. split; [|reflexivity].
  unfold RsgB.cell_sum at 1.
  rewrite (RsgB_sum_scaled self (RsgB.reset_state V Na self)
             (RsgB.clamped_sum self m + eps) m
             RsgB.cells (fun c => RsgB_reset_state_value V Na self c m)).
  fold (RsgB.clamped_sum self).
  assert (HC : RsgB.clamped_sum self m == RsgB.cell_sum self m)
    by apply (RsgB_clamped_sum_nonneg_cells self m RsgB.cells H).
  rewrite HC. reflexivity.
Qed.

Lemma RsgB_reset_state_ignores_B_witness :
  RsgB.cell_sum (RsgB.reset_state V_step demo_Na RsgB.partly_open) 1%nat ==
    RsgB.cell_sum RsgB.partly_open 1%nat / (RsgB.cell_sum RsgB.partly_open 1%nat + eps) /\
  RsgB.B (RsgB.reset_state V_step demo_Na RsgB.partly_open) = RsgB.B RsgB.partly_open.
Proof.
  apply (RsgB_reset_state_ignores_B V_step demo_Na RsgB.partly_open 1%nat).
  intro c. destruct c; vm_compute; discriminate.
Defined.
